(** * BrainGraph: the graph model, the node-importance scorer, the matrix
  projection and the binary codec of [src/Graph.cxx], with the properties
  of the specification stated over them. *)

From Stdlib Require Import ZArith NArith Lia List Ascii String.
From stdpp Require Import base option list gmap strings.

Local Open Scope N_scope.

(** ** Exceptions

  The C++ code signals failure by throwing.  [out_of_range] is what
  [std::vector::at], [std::map::at] and the bounds-checked accessors of
  the graph throw, [invalid_argument] and [stoul_out_of_range] are the two
  exceptions of [std::stoul], [runtime_error] carries the message of the
  [throw] statements of [load_binary].  [undefined_behaviour] marks the
  places where the source indexes a [std::vector] with the unchecked
  [operator[]] outside its bounds: the model promises nothing there. *)
Inductive exn : Type :=
| out_of_range
| invalid_argument
| stoul_out_of_range
| runtime_error (what : string)
| undefined_behaviour.

Inductive result (A : Type) : Type :=
| Ok (a : A)
| Throw (e : exn).
Arguments Ok {A} a.
Arguments Throw {A} e.

(** Sequencing: an exception thrown by the first computation propagates. *)
Global Instance result_ret : MRet result := fun A a => Ok a.
Global Instance result_bind : MBind result := fun A B k r =>
  match r with
  | Ok a => k a
  | Throw e => Throw e
  end.

(** ** Sizes of the numeric types

    [id_type], [property_type] and [weight_type] are declared in [Graph.h];
    their sizes in bytes are parameters of the model.  Arithmetic on
    [id_type] wraps around at [2 ^ (8 * sizeof(id_type))]; [std::size_t]
    has 64 bits. *)
Class TypeSizes : Type := {
  sizeof_id_type : N;
  sizeof_property_type : N;
  sizeof_weight_type : N
}.

Definition id_modulus `{TypeSizes} : N := 2 ^ (8 * sizeof_id_type).
Definition id_wrap `{TypeSizes} (x : N) : N := x mod id_modulus.
Definition size_t_modulus : N := 2 ^ 64.
Definition size_t_wrap (x : N) : N := x mod size_t_modulus.

(** ** Data model *)

(** [Property]: the vector [values] of elements of [property_type]; [dim()]
    is its length. *)
Abbreviation Property F := (list F) (only parsing).

Section DataModel.
(** [F] is [property_type], [W] is [weight_type]; both are declared in
    [Graph.h]. *)
Context {F W : Type}.

Definition dim (p : Property F) : nat := length p.

(** Modelled from the spec: [Graph.h] is absent.  Section 4.1 gives the two
    constructors ([Property(v)] of dim 1 and [Property(vector)]); the
    default-constructed [Property] that [std::map::operator[]] inserts for
    a missing key has no elements, and element access outside [0, dim)
    fails with an out-of-range error. *)
Definition Property_of_value (v : F) : Property F := [v].
Definition Property_default : Property F := [].
Definition Property_at (p : Property F) (i : nat) : result F :=
  match p !! i with
  | Some v => Ok v
  | None => Throw out_of_range
  end.

(** [Node]: [id()] and the public member [properties], a
    [std::map<std::string, Property>]. *)
Record Node : Type := mkNode {
  id : N;
  properties : gmap string (Property F)
}.

(** [Edge]: members [node] (the target) and [weight]. *)
Record Edge : Type := mkEdge {
  edge_node : N;
  edge_weight : W
}.

(** [Graph]: the node vector [nodes_] and, per node, its outgoing edges. *)
Record Graph : Type := mkGraph {
  nodes_ : list Node;
  edges_ : list (list Edge)
}.

Definition no_of_nodes (g : Graph) : N := N.of_nat (length (nodes_ g)).

(** Modelled from the spec: section 4.3, [node(i)] fails when [i] is not
    in [0, N). *)
Definition node_at (ns : list Node) (i : N) : result Node :=
  match ns !! N.to_nat i with
  | Some n => Ok n
  | None => Throw out_of_range
  end.

Definition edges (g : Graph) (i : N) : list Edge :=
  default [] (edges_ g !! N.to_nat i).

Definition set_properties (n : Node) (ps : gmap string (Property F)) : Node :=
  mkNode (id n) ps.
End DataModel.

Arguments Node : clear implicits.
Arguments Edge : clear implicits.
Arguments Graph : clear implicits.

(** ** Node-importance scorer *)

(** The floating-point operations the code uses on [double]s: the scorer's
    arithmetic, and the product, sum and conversion to an index of the
    matrix projection.  Everything is stated over any interpretation of
    them, so what is proved holds for IEEE arithmetic as for exact reals. *)
Class Floating (F : Type) : Type := {
  F_of_Z : Z -> F;
  F_to_Z : F -> Z;
  fadd : F -> F -> F;
  fsub : F -> F -> F;
  fmul : F -> F -> F;
  fdiv : F -> F -> F;
  fneg : F -> F;
  flog : F -> F;
  fsqrt : F -> F;
  fexp : F -> F
}.

(** Sums and products of non-negative integers up to [bound] are exact, and
    so is the conversion back to an integer ([bound] is [2^53] for an IEEE
    [double]). *)
Class ExactIntegers (F : Type) `{Floating F} (bound : Z) : Prop := {
  fadd_exact : forall a b : Z,
    (0 <= a)%Z -> (0 <= b)%Z -> (a + b <= bound)%Z ->
    fadd (F_of_Z a) (F_of_Z b) = F_of_Z (a + b);
  fmul_exact : forall a b : Z,
    (0 <= a)%Z -> (0 <= b)%Z -> (a * b <= bound)%Z ->
    fmul (F_of_Z a) (F_of_Z b) = F_of_Z (a * b);
  F_to_Z_exact : forall a : Z,
    (0 <= a <= bound)%Z -> F_to_Z (F_of_Z a) = a
}.

(** The free interpretation, used to run the code on concrete inputs: an
    integer constant stands for itself, sums and products of constants are
    computed, every other operation builds the expression the code
    evaluates. *)
Inductive expr : Type :=
| EConst (z : Z)
| EAdd (a b : expr)
| ESub (a b : expr)
| EMul (a b : expr)
| EDiv (a b : expr)
| ENeg (a : expr)
| ELog (a : expr)
| ESqrt (a : expr)
| EExp (a : expr).

Definition expr_add (a b : expr) : expr :=
  match a, b with
  | EConst x, EConst y => EConst (x + y)
  | _, _ => EAdd a b
  end.

Definition expr_mul (a b : expr) : expr :=
  match a, b with
  | EConst x, EConst y => EConst (x * y)
  | _, _ => EMul a b
  end.

Definition expr_to_Z (a : expr) : Z :=
  match a with
  | EConst x => x
  | _ => 0
  end.

Global Instance expr_floating : Floating expr := {|
  F_of_Z := EConst;
  F_to_Z := expr_to_Z;
  fadd := expr_add;
  fsub := ESub;
  fmul := expr_mul;
  fdiv := EDiv;
  fneg := ENeg;
  flog := ELog;
  fsqrt := ESqrt;
  fexp := EExp
|}.

(** An entry of a path: a node id and the cumulative weight. *)
Record DecoratedNode (F : Type) : Type := mkDecoratedNode {
  dn_id : N;
  dn_weight : F
}.
Arguments mkDecoratedNode {F} _ _.
Arguments dn_id {F} _.
Arguments dn_weight {F} _.

Section Scorer.
Context {F : Type} `{Floating F}.

(** The scorer mutates [this->nodes_] in place and may throw half-way: a
    computation takes the node vector and returns the node vector it
    leaves behind together with a value or the exception. *)
Definition Eff (A : Type) : Type := list (Node F) -> list (Node F) * result A.

Definition ret {A} (a : A) : Eff A := fun s => (s, Ok a).
Definition bind {A B} (c : Eff A) (k : A -> Eff B) : Eff B :=
  fun s => match c s with
           | (s', Ok a) => k a s'
           | (s', Throw e) => (s', Throw e)
           end.
Definition lift {A} (r : result A) : Eff A := fun s => (s, r).

Notation "x <~ c ;; k" := (bind c (fun x => k))
  (at level 100, c at next level, right associativity).
Notation "c ;;; k" := (bind c (fun _ => k))
  (at level 100, right associativity).

(** [for (auto x : xs) body]. *)
Fixpoint for_each {A} (xs : list A) (body : A -> Eff unit) : Eff unit :=
  match xs with
  | [] => ret tt
  | x :: xs' => body x ;;; for_each xs' body
  end.

(** [this->node(i)], read. *)
Definition get_node (i : N) : Eff (Node F) := fun s => (s, node_at s i).

(** Store through the reference [this->node(i)]. *)
Definition put_node (i : N) (n : Node F) : Eff unit :=
  fun s => (<[N.to_nat i := n]> s, Ok tt).

(** [this->node(i).properties[key]]: [std::map::operator[]] inserts a
    default-constructed [Property] when the key is missing. *)
Definition property_ref (i : N) (key : string) : Eff (Property F) :=
  n <~ get_node i ;;
  match properties n !! key with
  | Some p => ret p
  | None =>
      put_node i (set_properties n (<[key := Property_default]> (properties n))) ;;;
      ret Property_default
  end.

(** [this->node(i).properties[key][0]], read. *)
Definition read0 (i : N) (key : string) : Eff F :=
  p <~ property_ref i key ;;
  lift (Property_at p 0).

(** [node.properties[key][0] += x] on [node = this->node(i)]. *)
Definition add0 (i : N) (key : string) (x : F) : Eff unit :=
  p <~ property_ref i key ;;
  v <~ lift (Property_at p 0) ;;
  n <~ get_node i ;;
  put_node i (set_properties n (<[key := <[0%nat := fadd v x]> p]> (properties n))).

(** Lines 19-22: the pre-pass. *)
Definition reset_node (count confidence : string) (n : Node F) : Node F :=
  set_properties n
    (<[confidence := Property_of_value (F_of_Z 0)]>
       (<[count := Property_of_value (F_of_Z 0)]> (properties n))).

Definition reset (count confidence : string) : Eff unit :=
  fun s => (reset_node count confidence <$> s, Ok tt).

(** Line 26: [path.size() - 1.]. *)
Definition path_length (path : list (DecoratedNode F)) : Z :=
  Z.of_nat (length path) - 1.

(** Lines 30-31. *)
Definition score_of (last_weight w0 wn : F) (len : Z) : F :=
  fexp (fneg (fdiv (fsub (fsub last_weight w0) wn) (F_of_Z len))).

(** Lines 26-37: the body of the loop over the paths ([num_of_paths] is
    counted and never read). *)
Definition score_path (prior count confidence : string)
    (path : list (DecoratedNode F)) : Eff unit :=
  let len := path_length path in
  if (0 <? len)%Z then
    match head path, last path with
    | Some first, Some back =>
        p0 <~ read0 (dn_id first) prior ;;
        let node_0_weight := flog (fsqrt p0) in
        pn <~ read0 (dn_id back) prior ;;
        let node_n_weight := flog (fsqrt pn) in
        let score := score_of (dn_weight back) node_0_weight node_n_weight len in
        for_each path (fun d_node =>
          get_node (dn_id d_node) ;;;
          add0 (dn_id d_node) count (F_of_Z 1) ;;;
          add0 (dn_id d_node) confidence score)
    | _, _ => ret tt
    end
  else ret tt.

Definition calculate_node_importance (r2r : list (list (DecoratedNode F)))
    (prior count confidence : string) : Eff unit :=
  reset count confidence ;;;
  for_each r2r (score_path prior count confidence).
End Scorer.

(** ** Matrix projection *)

Section Matrix.
Context {F W : Type} `{Floating F} `{TypeSizes}.

(** [properties.at(key)]. *)
Definition map_at (m : gmap string (Property F)) (key : string) : result (Property F) :=
  match m !! key with
  | Some p => Ok p
  | None => Throw out_of_range
  end.

(** The conversion of an [id_type] operand to [property_type]. *)
Definition F_of_id (x : N) : F := F_of_Z (Z.of_N x).

(** Line 49, the index expression
    [pos[2] + pos[1] * slices + pos[0] * columns * slices], evaluated in
    [property_type]. *)
Definition flat_index (pos : Property F) (columns slices : N) : result F :=
  p2 ← Property_at pos 2;
  p1 ← Property_at pos 1;
  p0 ← Property_at pos 0;
  mret (fadd (fadd p2 (fmul p1 (F_of_id slices)))
             (fmul (fmul p0 (F_of_id columns)) (F_of_id slices))).

(** [weights.at(idx) = w], the index being the floating-point value
    converted to [size_type]: a conversion that is undefined for a value
    that is negative or too large, and an access that throws when the index
    is not below the size. *)
Definition vector_at_put (weights : list F) (idx : Z) (w : F) : result (list F) :=
  if (idx <? 0)%Z || (Z.of_N size_t_modulus <=? idx)%Z then Throw undefined_behaviour
  else if (Z.to_nat idx <? length weights)%nat then Ok (<[Z.to_nat idx := w]> weights)
  else Throw out_of_range.

(** Lines 47-50: the loop over the nodes. *)
Fixpoint project_nodes (ns : list (Node F)) (columns slices : N)
    (weight_key pos_key : string) (weights : list F) : result (list F) :=
  match ns with
  | [] => Ok weights
  | n :: ns' =>
      pos ← map_at (properties n) pos_key;
      wp ← map_at (properties n) weight_key;
      w ← Property_at wp 0;
      idx ← flat_index pos columns slices;
      weights' ← vector_at_put weights (F_to_Z idx) w;
      project_nodes ns' columns slices weight_key pos_key weights'
  end.

Definition as_matrix (g : Graph F W) (rows columns slices : N)
    (weight_key pos_key : string) : result (list F) :=
  let weights :=
    replicate (N.to_nat (id_wrap (id_wrap (rows * columns) * slices))) (F_of_Z 0) in
  project_nodes (nodes_ g) columns slices weight_key pos_key weights.
End Matrix.

(** ** Binary codec: characters, streams and strings *)

(** A [std::string], and the contents of a file, are sequences of 8-bit
    characters. *)
Definition chars (s : string) : list ascii := list_ascii_of_string s.
Definition newline : ascii := "010"%char.
Definition space : ascii := " "%char.

(** [out << n] for an unsigned integer: its decimal digits.  [digits_rev]
    produces them least significant first; the fuel given by [decimal]
    is at least the number of digits. *)
Definition digit_char (d : N) : ascii := ascii_of_N (48 + d).

Fixpoint digits_rev (fuel : nat) (n : N) : list N :=
  match fuel with
  | O => []
  | S fuel' => if n <? 10 then [n] else (n mod 10) :: digits_rev fuel' (n / 10)
  end.

Definition decimal (n : N) : list ascii :=
  digit_char <$> reverse (digits_rev (S (N.to_nat (N.log2 n))) n).

(** Line 77, [ceil(8*sizeof(id_type)/log2(10))]: the least [k] such that
    [2^(8*sizeof(id_type)) <= 10^k], which is the number of digits of
    [2^(8*sizeof(id_type)) - 1]; for the sizes 1, 2, 4 and 8 this is 3, 5,
    10 and 20, as the floating-point expression evaluates to. *)
Definition ceil_log10 (x : N) : nat :=
  if x <=? 1 then O else length (decimal (x - 1)).

Definition reserved_width `{TypeSizes} : nat := ceil_log10 id_modulus.

(** Raw representation of the values of a numeric type in [size] bytes, as
    [write] and [read] of its storage produce and consume it.  Reading back
    the bytes of a value of the type gives the value. *)
Class Wire (T : Type) (size : N) : Type := {
  encode : T -> list ascii;
  decode : list ascii -> T;
  representable : T -> Prop;
  encode_length : forall v, length (encode v) = N.to_nat size;
  decode_encode : forall v, representable v -> decode (encode v) = v
}.

(** An unsigned integer in [k] bytes, least significant byte first (the
    host byte order of the usual little-endian machines). *)
Fixpoint le_bytes (k : nat) (n : N) : list ascii :=
  match k with
  | O => []
  | S k' => ascii_of_N (n mod 256) :: le_bytes k' (n / 256)
  end.

Fixpoint le_value (bs : list ascii) : N :=
  match bs with
  | [] => 0
  | b :: bs' => N_of_ascii b + 256 * le_value bs'
  end.

Definition encode_id `{TypeSizes} (x : N) : list ascii :=
  le_bytes (N.to_nat sizeof_id_type) x.
Definition decode_id (bs : list ascii) : N := le_value bs.

(** [std::ifstream]: what is left to read, and the state flags. *)
Record istream : Type := mk_istream {
  remaining : list ascii;
  eofbit : bool;
  failbit : bool
}.

Definition good (s : istream) : bool := negb (eofbit s) && negb (failbit s).

(** The characters before the first [delim], and what follows it when there
    is one. *)
Fixpoint break_at (delim : ascii) (l : list ascii) : list ascii * option (list ascii) :=
  match l with
  | [] => ([], None)
  | c :: l' =>
      if Ascii.eqb c delim then ([], Some l')
      else let '(a, r) := break_at delim l' in (c :: a, r)
  end.

(** [std::getline(file, line)].  On a stream that is not good it sets
    [failbit] and leaves [line] alone.  Otherwise it extracts up to the
    newline, which it drops; reaching the end of the file sets [eofbit],
    and also [failbit] when nothing was extracted. *)
Definition getline (file : istream) (line : list ascii) : istream * list ascii :=
  if good file then
    match break_at newline (remaining file) with
    | (l, Some rest) => (mk_istream rest false false, l)
    | (l, None) => (mk_istream [] true (bool_decide (l = [])), l)
    end
  else (mk_istream (remaining file) (eofbit file) true, line).

(** [stream.read(buffer, n)] into a buffer of at least [n] bytes; a short
    read stores what there was and sets [eofbit] and [failbit]. *)
Definition read (stream : istream) (n : nat) (buffer : list ascii) : istream * list ascii :=
  if good stream then
    let got := take n (remaining stream) in
    let short := (length got <? n)%nat in
    (mk_istream (drop n (remaining stream)) short short,
     got ++ drop (length got) buffer)
  else (mk_istream (remaining stream) (eofbit stream) true, buffer).

(** Modelled from the spec: [StringFunctions.h] is absent.  [split(s, d)]
    splits [s] on the character [d]; [trim(s, cs)] removes the characters
    of [cs] from both ends of [s], and [trim(s)] removes whitespace. *)
Fixpoint split (l : list ascii) (delim : ascii) : list (list ascii) :=
  match l with
  | [] => [[]]
  | c :: l' =>
      if Ascii.eqb c delim then [] :: split l' delim
      else match split l' delim with
           | t :: ts => (c :: t) :: ts
           | [] => [[c]]
           end
  end.

Definition whitespace : list ascii :=
  [" "; "009"; "010"; "011"; "012"; "013"]%char.

Fixpoint ltrim (l : list ascii) (cs : list ascii) : list ascii :=
  match l with
  | [] => []
  | c :: l' => if bool_decide (c ∈ cs) then ltrim l' cs else l
  end.

Definition trim (l : list ascii) (cs : list ascii) : list ascii :=
  reverse (ltrim (reverse (ltrim l cs)) cs).

(** [std::stoul(s)] in base 10: leading whitespace, an optional sign, then
    digits up to the first other character.  No digit is
    [std::invalid_argument], a value above [ULONG_MAX] is
    [std::out_of_range]; a minus sign negates in [unsigned long]. *)
Definition digit_value (c : ascii) : option N :=
  let n := N_of_ascii c in
  if (48 <=? n) && (n <=? 57) then Some (n - 48) else None.

Fixpoint parse_digits (l : list ascii) (acc : N) : N :=
  match l with
  | [] => acc
  | c :: l' =>
      match digit_value c with
      | Some d => parse_digits l' (10 * acc + d)
      | None => acc
      end
  end.

Definition stoul (s : list ascii) : result N :=
  let s1 := ltrim s whitespace in
  let '(negative, s2) :=
    match s1 with
    | c :: r => if Ascii.eqb c "-" then (true, r)
                else if Ascii.eqb c "+" then (false, r) else (false, s1)
    | [] => (false, s1)
    end in
  match s2 with
  | c :: _ =>
      match digit_value c with
      | Some _ =>
          let v := parse_digits s2 0 in
          if size_t_modulus <=? v then Throw stoul_out_of_range
          else Ok (if negative then size_t_wrap (size_t_modulus - v) else v)
      | None => Throw invalid_argument
      end
  | [] => Throw invalid_argument
  end.

(** [v[i]] on a [std::vector], unchecked. *)
Definition vector_index {A} (v : list A) (i : nat) : result A :=
  match v !! i with
  | Some x => Ok x
  | None => Throw undefined_behaviour
  end.

(** [line.find_first_of(c)] and [line.find_last_of(c)]. *)
Fixpoint find_first_of (l : list ascii) (c : ascii) : option nat :=
  match l with
  | [] => None
  | x :: l' => if Ascii.eqb x c then Some O else S <$> find_first_of l' c
  end.

Definition find_last_of (l : list ascii) (c : ascii) : option nat :=
  (fun i => length l - 1 - i)%nat <$> find_first_of (reverse l) c.

(** [line.substr(start, len)] with [start <= line.size()]. *)
Definition substr (l : list ascii) (start : nat) (len : N) : list ascii :=
  let avail := drop start l in
  if N.of_nat (length avail) <=? len then avail else take (N.to_nat len) avail.

(** [unsigned int] has 32 bits. *)
Definition uint_wrap (x : N) : N := x mod 2 ^ 32.

(** ** The header *)

Module Header.
Record t : Type := mk {
  node_count : N;
  edge_count : N;
  node_id_bytes : N;
  property_element_bytes : N;
  total_property_elements : N;
  edge_weight_bytes : N;
  properties : list (string * N)
}.
End Header.

Section HeaderParser.
Context `{TypeSizes}.

(** Lines 153-155: one [key = value] line. *)
Definition parse_entry (line : list ascii) (header_entries : gmap string N)
    : result (gmap string N) :=
  let mapping := split line "=" in
  m1 ← vector_index mapping 1;
  value ← stoul (trim m1 whitespace);
  m0 ← vector_index mapping 0;
  mret (<[string_of_list_ascii (trim m0 whitespace) := value]> header_entries).

(** Lines 152-156: the loop over the entries. *)
Fixpoint parse_entries (n : nat) (file : istream) (line : list ascii)
    (header_entries : gmap string N)
    : result (istream * list ascii * gmap string N) :=
  match n with
  | O => Ok (file, line, header_entries)
  | S n' =>
      let '(file', line') := getline file line in
      entries' ← parse_entry line' header_entries;
      parse_entries n' file' line' entries'
  end.

(** [header_entries[key]], which is 0 for a key that was not read. *)
Definition entry (header_entries : gmap string N) (key : string) : N :=
  default 0 (header_entries !! key).

(** Lines 157-161. *)
Definition set_entries (header : Header.t) (header_entries : gmap string N) : Header.t :=
  Header.mk
    (id_wrap (entry header_entries "node_count"))
    (id_wrap (entry header_entries "edge_count"))
    (uint_wrap (entry header_entries "node_id_bytes"))
    (uint_wrap (entry header_entries "property_element_bytes"))
    (Header.total_property_elements header)
    (uint_wrap (entry header_entries "edge_weight_bytes"))
    (Header.properties header).

(** Lines 166-168: the text between the first [(] and the last [)].
    [npos + 1] is 0, and [end - start] is computed in [std::size_t]: it
    wraps around when [end] is before [start]. *)
Definition properties_interior (line : list ascii) : list ascii :=
  let start := match find_first_of line "(" with
               | Some i => S i
               | None => O
               end in
  let end_ := match find_last_of line ")" with
              | Some j => N.of_nat j
              | None => size_t_modulus - 1
              end in
  let len := if N.of_nat start <=? end_ then end_ - N.of_nat start
             else size_t_modulus - (N.of_nat start - end_) in
  substr line start len.

(** Lines 170-173: one token [name:dim]. *)
Definition parse_property (token : list ascii) : result (string * N) :=
  let kv := split token ":" in
  k1 ← vector_index kv 1;
  elements ← stoul (trim k1 [space; ")"%char]);
  k0 ← vector_index kv 0;
  mret (string_of_list_ascii (trim k0 [space; "("%char]), elements).

(** Lines 169-174: the loop over the tokens. *)
Fixpoint parse_properties (tokens : list (list ascii)) (total_elements : N)
    (properties : list (string * N)) : result (N * list (string * N)) :=
  match tokens with
  | [] => Ok (total_elements, properties)
  | token :: tokens' =>
      '(name, elements) ← parse_property token;
      parse_properties tokens' (size_t_wrap (total_elements + elements))
        (properties ++ [(name, uint_wrap elements)])
  end.

(** Lines 147-177: the loop of [parse_header].  Every iteration reads at
    least one line, so [fuel] iterations suffice for a file of fewer than
    [fuel] characters; [None] stands for running out of fuel. *)
Fixpoint parse_header_loop (fuel : nat) (file : istream) (line : list ascii)
    (header : Header.t) : option (result (Header.t * istream)) :=
  if good file && negb (bool_decide (line = chars "# Data")) then
    match fuel with
    | O => None
    | S fuel' =>
        let '(file1, line1) := getline file line in
        if bool_decide (line1 = chars "# Header") then
          match parse_entries 5 file1 line1 ∅ with
          | Throw e => Some (Throw e)
          | Ok (file2, line2, header_entries) =>
              parse_header_loop fuel' file2 line2 (set_entries header header_entries)
          end
        else if bool_decide (line1 = chars "# Properties") then
          let '(file2, line2) := getline file1 line1 in
          let line3 := properties_interior line2 in
          match parse_properties (split line3 ",") 0 (Header.properties header) with
          | Throw e => Some (Throw e)
          | Ok (total_elements, properties) =>
              parse_header_loop fuel' file2 line3
                (Header.mk (Header.node_count header) (Header.edge_count header)
                   (Header.node_id_bytes header) (Header.property_element_bytes header)
                   (uint_wrap total_elements) (Header.edge_weight_bytes header)
                   properties)
          end
        else parse_header_loop fuel' file1 line1 header
    end
  else Some (Ok (header, file)).

(** [parse_header(file)].  The fields of [Header header;] start
    indeterminate, except the empty vector: [uninitialised] stands for
    whatever they hold. *)
Definition parse_header (uninitialised : Header.t) (file : istream)
    : option (result (Header.t * istream)) :=
  parse_header_loop (S (length (remaining file))) file []
    (Header.mk (Header.node_count uninitialised) (Header.edge_count uninitialised)
       (Header.node_id_bytes uninitialised) (Header.property_element_bytes uninitialised)
       (Header.total_property_elements uninitialised)
       (Header.edge_weight_bytes uninitialised) []).
End HeaderParser.

(** ** The data section, [load_binary] and [save_binary] *)

Section Codec.
Context `{TypeSizes} {F W : Type}.
Context `{!Wire F sizeof_property_type} `{!Wire W sizeof_weight_type}.

Definition id_size : nat := N.to_nat sizeof_id_type.
Definition property_size : nat := N.to_nat sizeof_property_type.
Definition weight_size : nat := N.to_nat sizeof_weight_type.

(** [struct EdgeInfo] is taken to be laid out without padding, so that
    [sizeof(EdgeInfo)] is the [2 * sizeof(id_type) + sizeof(weight_type)]
    that [parse_data] reads per record. *)
Definition edge_bytes : nat := (2 * id_size + weight_size)%nat.

(** [std::vector<property_type>(start, end)] on the storage of
    [property_values]: [count] elements from the bytes given. *)
Fixpoint decode_elements (count : nat) (bytes : list ascii) : list F :=
  match count with
  | O => []
  | S count' =>
      decode (take property_size bytes) :: decode_elements count' (drop property_size bytes)
  end.

(** Lines 197-203: the properties of a node, sliced from [property_values]
    by the dims of the schema.  An iterator past the end of the vector is
    undefined. *)
Fixpoint slice_properties (schema : list (string * N)) (start total : N)
    (property_values : list ascii) (properties : gmap string (Property F))
    : result (gmap string (Property F)) :=
  match schema with
  | [] => Ok properties
  | (name, elements) :: schema' =>
      let end_ := start + elements in
      if end_ <=? total then
        slice_properties schema' end_ total property_values
          (<[name := decode_elements (N.to_nat elements)
                       (drop (N.to_nat start * property_size) property_values)]>
             properties)
      else Throw undefined_behaviour
  end.

(** Lines 191-205: the loop over the nodes.  The id read from the file
    goes to a local that is not used; the node gets the loop index. *)
Fixpoint read_nodes (count : nat) (i : N) (stream : istream)
    (property_values : list ascii) (header : Header.t) (nodes : list (Node F))
    : result (istream * list (Node F)) :=
  match count with
  | O => Ok (stream, nodes)
  | S count' =>
      let '(stream1, _) := read stream id_size (replicate id_size "000"%char) in
      let property_bytes :=
        N.to_nat (size_t_wrap
          (sizeof_property_type * Header.total_property_elements header)) in
      let '(stream2, property_values') := read stream1 property_bytes property_values in
      properties ← slice_properties (Header.properties header) 0
                     (Header.total_property_elements header) property_values' ∅;
      read_nodes count' (i + 1) stream2 property_values' header
        (nodes ++ [mkNode i properties])
  end.

(** Lines 209-213: the loop over the edge records.  [e_info] is not
    initialised, so its use after a read that did not fill it is undefined,
    as is [edges[e_info.source]] for a source that is not a node. *)
Fixpoint read_edges (count : nat) (stream : istream) (edges : list (list (Edge W)))
    : result (list (list (Edge W))) :=
  match count with
  | O => Ok edges
  | S count' =>
      let '(stream', e_info) := read stream edge_bytes [] in
      if good stream' then
        let source := decode_id (take id_size e_info) in
        let target := decode_id (take id_size (drop id_size e_info)) in
        let weight := decode (drop (2 * id_size) e_info) in
        match edges !! N.to_nat source with
        | Some es =>
            read_edges count' stream'
              (<[N.to_nat source := es ++ [mkEdge target weight]]> edges)
        | None => Throw undefined_behaviour
        end
      else Throw undefined_behaviour
  end.

Definition parse_data (stream : istream) (header : Header.t)
    : result (list (Node F) * list (list (Edge W))) :=
  let property_values :=
    replicate (N.to_nat (Header.total_property_elements header) * property_size)
      "000"%char in
  '(stream1, nodes) ← read_nodes (N.to_nat (Header.node_count header)) 0 stream
                        property_values header [];
  edges ← read_edges (N.to_nat (Header.edge_count header)) stream1
            (replicate (N.to_nat (Header.node_count header)) []);
  mret (nodes, edges).

Definition file_is_not_good : string := String.append "file is not good" (String newline "").
Definition id_size_mismatch : string :=
  "Size of node id type is not equal to size of id_type".
Definition property_size_mismatch : string :=
  "Size of property element type is not equal to size of property_type".
Definition weight_size_mismatch : string :=
  "Size of edge weight type is not equal to size of weight_type".

(** [load_binary(path)]: [contents] is the file at [path], or [None] when it
    cannot be opened. *)
Definition load_binary (uninitialised : Header.t) (contents : option (list ascii))
    : option (result (Graph F W)) :=
  match contents with
  | None => Some (Throw (runtime_error file_is_not_good))
  | Some bytes =>
      match parse_header uninitialised (mk_istream bytes false false) with
      | None => None
      | Some (Throw e) => Some (Throw e)
      | Some (Ok (header, file)) =>
          if negb (Header.node_id_bytes header =? sizeof_id_type) then
            Some (Throw (runtime_error id_size_mismatch))
          else if negb (Header.property_element_bytes header =? sizeof_property_type) then
            Some (Throw (runtime_error property_size_mismatch))
          else if sizeof_weight_type <? Header.edge_weight_bytes header then
            Some (Throw (runtime_error weight_size_mismatch))
          else
            Some ('(nodes, edges) ← parse_data file header; mret (mkGraph nodes edges))
      end
  end.

(** Lines 88-93: the entries of the schema line, separated by commas. *)
Fixpoint write_schema (properties : list (string * Property F)) : list ascii :=
  match properties with
  | [] => []
  | (name, prop) :: rest =>
      chars "(" ++ chars name ++ chars ":" ++ decimal (N.of_nat (dim prop)) ++ chars ")"
      ++ match rest with
         | [] => []
         | _ :: _ => chars "," ++ write_schema rest
         end
  end.

(** Lines 102-106: the id of a node and the elements of its properties. *)
Definition write_node (n : Node F) : list ascii :=
  encode_id (id n) ++
  concat ((fun prop : string * Property F => concat (encode <$> prop.2))
            <$> map_to_list (properties n)).

(** Lines 114-120: the records of the edges of node [i]; [edge_count] is a
    [std::size_t]. *)
Definition write_edge (i : N) (edge : Edge W) : list ascii :=
  encode_id i ++ encode_id (edge_node edge) ++ encode (edge_weight edge).

Fixpoint write_edges_of (i : N) (es : list (Edge W)) (out : list ascii) (edge_count : N)
    : list ascii * N :=
  match es with
  | [] => (out, edge_count)
  | edge :: es' =>
      write_edges_of i es' (out ++ write_edge i edge) (size_t_wrap (edge_count + 1))
  end.

(** Lines 113-121: the loop over the nodes, [i] running from [i] up. *)
Fixpoint write_edges (g : Graph F W) (count : nat) (i : N) (out : list ascii)
    (edge_count : N) : list ascii * N :=
  match count with
  | O => (out, edge_count)
  | S count' =>
      let '(out', edge_count') := write_edges_of i (edges g i) out edge_count in
      write_edges g count' (i + 1) out' edge_count'
  end.

(** [out.seekp(pos); out << s]. *)
Definition overwrite (out : list ascii) (pos : nat) (s : list ascii) : list ascii :=
  take pos out ++ s ++ drop (pos + length s) out.

(** Lines 72-74: the header up to the reserved field. *)
Definition header_prefix (g : Graph F W) : list ascii :=
  chars "# Header" ++ [newline] ++
  chars "node_count = " ++ decimal (no_of_nodes g) ++ [newline] ++
  chars "edge_count = ".

(** Lines 77-99: from the end of the reserved field to the end of the
    header. *)
Definition header_tail (g : Graph F W) : list ascii :=
  [newline] ++
  chars "node_id_bytes = " ++ decimal sizeof_id_type ++ [newline] ++
  chars "property_element_bytes = " ++ decimal sizeof_property_type ++ [newline] ++
  chars "edge_weight_bytes = " ++ decimal sizeof_weight_type ++ [newline] ++
  match nodes_ g with
  | node0 :: _ =>
      match map_to_list (properties node0) with
      | [] => []
      | props =>
          chars "# Properties" ++ [newline] ++
          chars "properties = " ++ write_schema props ++ [newline]
      end
  | [] => []
  end ++
  chars "# Data" ++ [newline].

(** [save_binary(path)]: [opened] tells whether the file could be opened;
    the result is what the file holds and the value returned. *)
Definition save_binary (opened : bool) (g : Graph F W) : list ascii * bool :=
  if opened then
    let out := header_prefix g in
    let edge_count_pos := length out in
    let out := out ++ replicate reserved_width space ++ header_tail g in
    let out := out ++ concat (write_node <$> nodes_ g) in
    let '(out, edge_count) := write_edges g (length (nodes_ g)) 0 out 0 in
    (overwrite out edge_count_pos (decimal edge_count), true)
  else ([], false).
End Codec.

(** ** Unsigned words as elements and weights

    The codec moves the storage of elements and weights without looking
    into it; to run it on concrete files they are taken to be unsigned
    words, stored like the ids. *)

Lemma le_bytes_length k n : length (le_bytes k n) = k.
Proof. revert n. induction k as [|k IH]; intros n; cbn; [done|]. by rewrite IH. Qed.

Lemma le_value_bytes k n : n < 256 ^ N.of_nat k -> le_value (le_bytes k n) = n.
Proof.
  revert n. induction k as [|k IH]; intros n Hn; cbn [le_bytes le_value].
  - cbn in Hn. lia.
  - rewrite N_ascii_embedding by (apply N.mod_lt; lia).
    rewrite IH.
    + pose proof (N.div_mod n 256). lia.
    + apply N.Div0.div_lt_upper_bound.
      rewrite Nat2N.inj_succ, N.pow_succ_r' in Hn. lia.
Qed.

Program Definition word_wire (size : N) : Wire N size := {|
  encode := le_bytes (N.to_nat size);
  decode := le_value;
  representable := fun v => v < 256 ^ size
|}.
Next Obligation. intros size v. apply le_bytes_length. Qed.
Next Obligation.
  intros size v Hv. apply le_value_bytes. by rewrite N2Nat.id.
Qed.

(** ** Concrete graphs, over the free interpretation of the arithmetic *)

(** Three nodes carrying a [prior] of 7; node 2 lies on no path. *)
Definition example_nodes : list (Node expr) :=
  [ mkNode 0 {[ "prior"%string := [EConst 7] ]};
    mkNode 1 {[ "prior"%string := [EConst 7] ]};
    mkNode 2 {[ "prior"%string := [EConst 7] ]} ].

(** The single path [(0, 0), (1, 2)]. *)
Definition example_r2r : list (list (DecoratedNode expr)) :=
  [ [ mkDecoratedNode 0 (EConst 0); mkDecoratedNode 1 (EConst 2) ] ].

(** [exp(-((2 - log(sqrt 7) - log(sqrt 7)) / 1))]. *)
Definition example_score : expr :=
  EExp (ENeg (EDiv (ESub (ESub (EConst 2) (ELog (ESqrt (EConst 7))))
                         (ELog (ESqrt (EConst 7))))
                   (EConst 1))).

(** The sizes of an LP64 build with [id_type = std::size_t] and [double]
    elements and weights. *)
Definition lp64_sizes : TypeSizes :=
  {| sizeof_id_type := 8; sizeof_property_type := 8; sizeof_weight_type := 8 |}.

(** Three nodes on a 2 x 2 x 2 grid, at (0,0,0), (1,1,1) and (0,1,0). *)
Definition grid_node (i : N) (x y z w : Z) : Node expr :=
  mkNode i {[ "pos"%string := [EConst x; EConst y; EConst z];
              "weight"%string := [EConst w] ]}.

Definition grid_graph : Graph expr expr :=
  mkGraph [grid_node 0 0 0 0 5; grid_node 1 1 1 1 15; grid_node 2 0 1 0 25]
          [[]; []; []].

(** One node at the origin, to be projected on a grid of
    [2^32 * 2^32 * 1] cells. *)
Definition origin_graph : Graph expr expr :=
  mkGraph [grid_node 0 0 0 0 5] [[]].

(** ** Concrete files, with unsigned 8-byte words as elements and weights *)

Definition text_lines (ls : list string) : list ascii :=
  concat ((fun l => chars l ++ [newline]) <$> ls).

(** Some contents for the fields of [Header header;] before they are
    assigned. *)
Definition stale_header : Header.t := Header.mk 99 99 99 99 99 99 [].

(** A header that declares 4-byte node ids. *)
Definition narrow_id_file : list ascii :=
  text_lines [ "# Header"; "node_count = 0"; "edge_count = 0"; "node_id_bytes = 4";
               "property_element_bytes = 8"; "edge_weight_bytes = 8"; "# Data" ]%string.

(** A header that ends before the line [# Data]. *)
Definition truncated_file : list ascii :=
  text_lines [ "# Header"; "node_count = 2"; "edge_count = 0"; "node_id_bytes = 8";
               "property_element_bytes = 8"; "edge_weight_bytes = 8";
               "# Properties"; "properties = (prior:1)" ]%string.

(** Two nodes whose ids are not their positions, and three edges. *)
Definition mislabelled_graph : Graph N N :=
  mkGraph
    [ mkNode 5 {[ "prior"%string := [7]; "pos"%string := [1; 2; 3] ]};
      mkNode 9 {[ "prior"%string := [9]; "pos"%string := [4; 5; 6] ]} ]
    [ [mkEdge 1 2]; [mkEdge 0 5; mkEdge 1 300] ].

Definition mislabelled_file : list ascii :=
  (save_binary (H := lp64_sizes) (Wire0 := word_wire 8) (Wire1 := word_wire 8)
     true mislabelled_graph).1.

(** What loading [mislabelled_file] gives: the nodes are numbered by their
    positions. *)
Definition relabelled_node (i : N) (prior : N) (pos : list N) : Node N :=
  mkNode i {[ "prior"%string := [prior]; "pos"%string := pos ]}.

Definition relabelled_graph : Graph N N :=
  mkGraph [ relabelled_node 0 7 [1; 2; 3]; relabelled_node 1 9 [4; 5; 6] ]
          [ [mkEdge 1 2]; [mkEdge 0 5; mkEdge 1 300] ].



(** Three paths on the example nodes: one edge from 0 to 1, a path of a
    single entry that names no node, and two edges from 1 back to 1. *)
Definition tally_r2r : list (list (DecoratedNode expr)) :=
  [ [ mkDecoratedNode 0 (EConst 0); mkDecoratedNode 1 (EConst 2) ];
    [ mkDecoratedNode 7 (EConst 0) ];
    [ mkDecoratedNode 1 (EConst 0); mkDecoratedNode 2 (EConst 1);
      mkDecoratedNode 1 (EConst 3) ] ].

(** A graph whose second node has a position and no weight. *)
Definition unweighted_graph : Graph expr expr :=
  mkGraph [ grid_node 0 0 0 0 5;
            mkNode 1 {[ "pos"%string := [EConst 1; EConst 1; EConst 1] ]} ]
          [[]; []].

(** A node at [(0, 3, 1)], outside a grid of 2 x 2 x 2. *)
Definition stray_node : Node expr := grid_node 0 0 3 1 5.




(** The header of [mislabelled_file]. *)
Definition mislabelled_header : Header.t :=
  Header.mk 2 3 8 8 4 8 [("pos"%string, 3); ("prior"%string, 1)].

(** Three edge records that are not grouped by source. *)
Definition shuffled_records : list (N * Edge N) :=
  [ (1, mkEdge 0 5); (0, mkEdge 1 2); (1, mkEdge 1 300) ].



(** * Properties of the scorer *)

Section ScorerProofs.
Context {F : Type} `{Floating F}.
Implicit Types (s t : list (Node F)) (n : Node F) (i : N) (key : string).

(** [counter s i key] is [node(i).properties[key][0]] in the node vector [s]. *)
Definition counter s i key : option F :=
  match s !! N.to_nat i with
  | Some n => match properties n !! key with
              | Some p => p !! 0%nat
              | None => None
              end
  | None => None
  end.

(** *** The primitive accesses, as state transformers *)

Lemma get_node_ok s i n :
  s !! N.to_nat i = Some n -> get_node i s = (s, Ok n).
Proof. intros Hn. unfold get_node, node_at. by rewrite Hn. Qed.

Lemma get_node_throw s i :
  s !! N.to_nat i = None -> get_node (F:=F) i s = (s, Throw out_of_range).
Proof. intros Hn. unfold get_node, node_at. by rewrite Hn. Qed.

Lemma property_ref_present s i n key p :
  s !! N.to_nat i = Some n -> properties n !! key = Some p ->
  property_ref i key s = (s, Ok p).
Proof.
  intros Hn Hp. unfold property_ref, bind. rewrite (get_node_ok _ _ _ Hn).
  by rewrite Hp.
Qed.

Lemma property_ref_absent s i n key :
  s !! N.to_nat i = Some n -> properties n !! key = None ->
  property_ref i key s =
    (<[N.to_nat i := set_properties n (<[key := Property_default]> (properties n))]> s,
     Ok Property_default).
Proof.
  intros Hn Hp. unfold property_ref, bind. rewrite (get_node_ok _ _ _ Hn).
  by rewrite Hp.
Qed.

Lemma property_ref_throw s i key :
  s !! N.to_nat i = None -> property_ref (F:=F) i key s = (s, Throw out_of_range).
Proof.
  intros Hn. unfold property_ref, bind. by rewrite (get_node_throw _ _ Hn).
Qed.

Lemma read0_present s i n key v p :
  s !! N.to_nat i = Some n -> properties n !! key = Some (v :: p) ->
  read0 i key s = (s, Ok v).
Proof.
  intros Hn Hp. unfold read0, bind. by rewrite (property_ref_present _ _ _ _ _ Hn Hp).
Qed.

Lemma add0_present s i n key v p x :
  s !! N.to_nat i = Some n -> properties n !! key = Some (v :: p) ->
  add0 i key x s =
    (<[N.to_nat i := set_properties n (<[key := fadd v x :: p]> (properties n))]> s,
     Ok tt).
Proof.
  intros Hn Hp. unfold add0, bind.
  rewrite (property_ref_present _ _ _ _ _ Hn Hp).
  unfold lift, Property_at. cbn [lookup list_lookup].
  by rewrite (get_node_ok _ _ _ Hn).
Qed.

(** *** What one access can do to the node vector

    A read through [operator[]] leaves the vector alone or default-inserts
    the missing key; [+=] may moreover replace element 0 of a non-empty
    property. *)
Definition node_read key n n' : Prop :=
  properties n !! key = None /\
  n' = set_properties n (<[key := Property_default]> (properties n)).

Definition node_write key n n' : Prop :=
  exists v p x, properties n !! key = Some (v :: p) /\
    n' = set_properties n (<[key := x :: p]> (properties n)).

Definition step_read i key s t : Prop :=
  t = s \/
  exists n n', s !! N.to_nat i = Some n /\ node_read key n n' /\ t = <[N.to_nat i := n']> s.

Definition step_write i key s t : Prop :=
  exists n n', s !! N.to_nat i = Some n /\ node_write key n n' /\ t = <[N.to_nat i := n']> s.

Lemma property_ref_step i key s : step_read i key s (property_ref i key s).1.
Proof.
  destruct (s !! N.to_nat i) as [n|] eqn:Hn.
  - destruct (properties n !! key) as [p|] eqn:Hp.
    + rewrite (property_ref_present _ _ _ _ _ Hn Hp). by left.
    + rewrite (property_ref_absent _ _ _ _ Hn Hp). right. by eexists n, _.
  - rewrite (property_ref_throw _ _ _ Hn). by left.
Qed.

Lemma read0_step i key s : step_read i key s (read0 i key s).1.
Proof.
  pose proof (property_ref_step i key s) as Hs. unfold read0, bind.
  destruct (property_ref i key s) as [s' [p|e]]; cbn in *; done.
Qed.

Lemma add0_step i key x s :
  step_read i key s (add0 i key x s).1 \/ step_write i key s (add0 i key x s).1.
Proof.
  destruct (s !! N.to_nat i) as [n|] eqn:Hn.
  - destruct (properties n !! key) as [[|v p]|] eqn:Hp.
    + left. unfold add0, bind. rewrite (property_ref_present _ _ _ _ _ Hn Hp). by left.
    + right. rewrite (add0_present _ _ _ _ _ _ x Hn Hp).
      eexists n, _. split_and!; [done| |done]. by exists v, p, (fadd v x).
    + left. unfold add0, bind. rewrite (property_ref_absent _ _ _ _ Hn Hp). cbn.
      right. by eexists n, _.
  - left. unfold add0, bind. rewrite (property_ref_throw _ _ _ Hn). by left.
Qed.

(** A run that returns normally has default-inserted nothing: the element
    access that follows the insertion throws. *)
Lemma read0_ok i key s t v : read0 i key s = (t, Ok v) -> t = s.
Proof.
  unfold read0, bind. destruct (s !! N.to_nat i) as [n|] eqn:Hn.
  - destruct (properties n !! key) as [p|] eqn:Hp.
    + rewrite (property_ref_present _ _ _ _ _ Hn Hp). unfold lift. congruence.
    + rewrite (property_ref_absent _ _ _ _ Hn Hp). unfold lift. cbn. congruence.
  - rewrite (property_ref_throw _ _ _ Hn). congruence.
Qed.

Lemma add0_ok i key x s t : add0 i key x s = (t, Ok tt) -> step_write i key s t.
Proof.
  destruct (s !! N.to_nat i) as [n|] eqn:Hn.
  - destruct (properties n !! key) as [[|v p]|] eqn:Hp.
    + unfold add0, bind. rewrite (property_ref_present _ _ _ _ _ Hn Hp). cbn. congruence.
    + rewrite (add0_present _ _ _ _ _ _ x Hn Hp). intros [= <-].
      eexists n, _. split_and!; [done| |done]. by exists v, p, (fadd v x).
    + unfold add0, bind. rewrite (property_ref_absent _ _ _ _ Hn Hp). cbn. congruence.
  - unfold add0, bind. rewrite (property_ref_throw _ _ _ Hn). congruence.
Qed.

(** *** Invariants of the monadic code *)

(** [preserves R c]: whatever [c] does, also when it throws, the vector it
    leaves is [R]-related to the one it started from. *)
Definition preserves (R : relation (list (Node F))) {A} (c : Eff A) : Prop :=
  forall s, R s (c s).1.

(** [preserves_ok R c]: the same for the runs that return normally. *)
Definition preserves_ok (R : relation (list (Node F))) {A} (c : Eff A) : Prop :=
  forall s t a, c s = (t, Ok a) -> R s t.

Lemma bind_ok {A B} (c : Eff A) (k : A -> Eff B) s t b :
  bind c k s = (t, Ok b) -> exists s' a, c s = (s', Ok a) /\ k a s' = (t, Ok b).
Proof.
  unfold bind. destruct (c s) as [s' [a|e]]; [|done]. intros Hk. by exists s', a.
Qed.

Section Preservation.
Context (R : relation (list (Node F))) `{!PreOrder R}.

Lemma preserves_ret {A} (a : A) : preserves R (ret a).
Proof. intros s. cbn. reflexivity. Qed.

Lemma preserves_bind {A B} (c : Eff A) (k : A -> Eff B) :
  preserves R c -> (forall a, preserves R (k a)) -> preserves R (bind c k).
Proof.
  intros Hc Hk s. unfold bind. specialize (Hc s).
  destruct (c s) as [s' [a|e]]; cbn in *; [|done].
  etrans; [exact Hc | apply Hk].
Qed.

Lemma preserves_for_each {A} (xs : list A) (body : A -> Eff unit) :
  (forall x, x ∈ xs -> preserves R (body x)) -> preserves R (for_each xs body).
Proof.
  induction xs as [|x xs IH]; intros Hb; cbn [for_each].
  - apply preserves_ret.
  - apply preserves_bind.
    + apply Hb. by left.
    + intros _. apply IH. intros y Hy. apply Hb. by right.
Qed.

Lemma preserves_ok_ret {A} (a : A) : preserves_ok R (ret a).
Proof. intros s t b [= <- _]. reflexivity. Qed.

Lemma preserves_ok_bind {A B} (c : Eff A) (k : A -> Eff B) :
  preserves_ok R c -> (forall a, preserves_ok R (k a)) -> preserves_ok R (bind c k).
Proof.
  intros Hc Hk s t b Hrun. apply bind_ok in Hrun as (s' & a & Hc' & Hk').
  etrans; [exact (Hc _ _ _ Hc') | exact (Hk _ _ _ _ Hk')].
Qed.

Lemma preserves_ok_for_each {A} (xs : list A) (body : A -> Eff unit) :
  (forall x, x ∈ xs -> preserves_ok R (body x)) -> preserves_ok R (for_each xs body).
Proof.
  induction xs as [|x xs IH]; intros Hb; cbn [for_each].
  - apply preserves_ok_ret.
  - apply preserves_ok_bind.
    + apply Hb. by left.
    + intros _. apply IH. intros y Hy. apply Hb. by right.
Qed.
End Preservation.


(** *** The loop over the paths *)

Lemma get_node_unchanged i s : (get_node (F:=F) i s).1 = s.
Proof. done. Qed.

(** An invariant of the accesses the loop makes is an invariant of the
    loop: reads of any key and [+=] on the two counters, all on nodes that
    lie on a path with at least one edge. *)
Lemma score_path_preserves (R : relation (list (Node F))) `{!PreOrder R}
    prior count confidence path :
  (forall i key s t, (0 < path_length path)%Z -> i ∈ dn_id <$> path ->
     step_read i key s t -> R s t) ->
  (forall i key s t, (0 < path_length path)%Z -> i ∈ dn_id <$> path ->
     key = count \/ key = confidence -> step_write i key s t -> R s t) ->
  preserves R (score_path prior count confidence path).
Proof.
  intros Hread Hwrite. unfold score_path.
  destruct (0 <? path_length path)%Z eqn:Hlen; [|by apply preserves_ret].
  apply Z.ltb_lt in Hlen.
  destruct (head path) as [first|] eqn:Hfirst; [|by apply preserves_ret].
  destruct (last path) as [back|] eqn:Hback; [|by apply preserves_ret].
  apply head_Some_elem_of in Hfirst. apply last_Some_elem_of in Hback.
  assert (forall i key x, i ∈ dn_id <$> path -> key = count \/ key = confidence ->
            preserves R (add0 i key x)) as Hadd.
  { intros i key x Hi Hkey s. destruct (add0_step i key x s); eauto. }
  apply preserves_bind; [done| |].
  { intros s. eapply Hread; [done| |apply read0_step]. by apply list_elem_of_fmap_2. }
  intros p0. apply preserves_bind; [done| |].
  { intros s. eapply Hread; [done| |apply read0_step]. by apply list_elem_of_fmap_2. }
  intros pn. apply preserves_for_each; [done|].
  intros d Hd. apply (list_elem_of_fmap_2 dn_id) in Hd.
  apply preserves_bind; [done|by intros s; rewrite get_node_unchanged|].
  intros _. apply preserves_bind; [done|by apply Hadd; auto|].
  intros _. by apply Hadd; auto.
Qed.

Lemma score_path_preserves_ok (R : relation (list (Node F))) `{!PreOrder R}
    prior count confidence path :
  (forall i key s t, (0 < path_length path)%Z -> i ∈ dn_id <$> path ->
     key = count \/ key = confidence -> step_write i key s t -> R s t) ->
  preserves_ok R (score_path prior count confidence path).
Proof.
  intros Hwrite. unfold score_path.
  destruct (0 <? path_length path)%Z eqn:Hlen; [|by apply preserves_ok_ret].
  apply Z.ltb_lt in Hlen.
  destruct (head path) as [first|]; [|by apply preserves_ok_ret].
  destruct (last path) as [back|]; [|by apply preserves_ok_ret].
  assert (forall i key x, i ∈ dn_id <$> path -> key = count \/ key = confidence ->
            preserves_ok R (add0 i key x)) as Hadd.
  { intros i key x Hi Hkey s t [] Hrun. apply add0_ok in Hrun. eauto. }
  apply preserves_ok_bind; [done| |].
  { intros s t v Hrun. apply read0_ok in Hrun as ->. reflexivity. }
  intros p0. apply preserves_ok_bind; [done| |].
  { intros s t v Hrun. apply read0_ok in Hrun as ->. reflexivity. }
  intros pn. apply preserves_ok_for_each; [done|].
  intros d Hd. apply (list_elem_of_fmap_2 dn_id) in Hd.
  apply preserves_ok_bind; [done| |].
  { intros s t n. unfold get_node. intros [= <- _]. reflexivity. }
  intros _. apply preserves_ok_bind; [done|by apply Hadd; auto|].
  intros _. by apply Hadd; auto.
Qed.

(** The nodes the loop can touch: those lying on a path that is scored. *)
Definition on_scored_path (r2r : list (list (DecoratedNode F))) i : Prop :=
  exists path, path ∈ r2r /\ (0 < path_length path)%Z /\ i ∈ dn_id <$> path.

Lemma paths_preserve (R : relation (list (Node F))) `{!PreOrder R}
    r2r prior count confidence :
  (forall i key s t, on_scored_path r2r i -> step_read i key s t -> R s t) ->
  (forall i key s t, on_scored_path r2r i ->
     key = count \/ key = confidence -> step_write i key s t -> R s t) ->
  preserves R (for_each r2r (score_path prior count confidence)).
Proof.
  intros Hread Hwrite. apply preserves_for_each; [done|]. intros path Hpath.
  apply score_path_preserves; [done| |].
  - intros i key s t Hlen Hi. apply Hread. by exists path.
  - intros i key s t Hlen Hi. apply Hwrite. by exists path.
Qed.

Lemma paths_preserve_ok (R : relation (list (Node F))) `{!PreOrder R}
    r2r prior count confidence :
  (forall i key s t, key = count \/ key = confidence -> step_write i key s t -> R s t) ->
  preserves_ok R (for_each r2r (score_path prior count confidence)).
Proof.
  intros Hwrite. apply preserves_ok_for_each; [done|]. intros path Hpath.
  apply score_path_preserves_ok; [done|]. intros i key s t _ _. apply Hwrite.
Qed.


(** *** Node-wise invariants *)

(** A relation between the nodes before and after, lifted to the vector. *)
Lemma Forall2_step (P : relation (Node F)) `{!Reflexive P} s j n n' :
  s !! j = Some n -> P n n' -> Forall2 P s (<[j := n']> s).
Proof.
  intros Hn HP. rewrite <-(list_insert_id s j n) at 1 by done.
  apply Forall2_insert; [reflexivity|done].
Qed.


Lemma step_write_Forall2 (P : relation (Node F)) `{!Reflexive P} i key s t :
  (forall n n', node_write key n n' -> P n n') -> step_write i key s t -> Forall2 P s t.
Proof.
  intros HP (n & n' & Hn & Hstep & ->). eapply Forall2_step; eauto.
Qed.

(** Properties that are present and are not the counters keep their value. *)
Definition node_frame (count confidence : string) : relation (Node F) :=
  fun n n' => id n' = id n /\
    forall key p, key <> count -> key <> confidence ->
      properties n !! key = Some p -> properties n' !! key = Some p.

(** The same, and no property other than the counters appears. *)
Definition node_frame_exact (count confidence : string) : relation (Node F) :=
  fun n n' => id n' = id n /\
    forall key, key <> count -> key <> confidence ->
      properties n' !! key = properties n !! key.

(** Both counters are properties of dim 1. *)
Definition scalar_counters (count confidence : string) n : Prop :=
  (exists c, properties n !! count = Some [c]) /\
  (exists d, properties n !! confidence = Some [d]).

Definition keeps_scalar (count confidence : string) : relation (Node F) :=
  fun n n' => scalar_counters count confidence n -> scalar_counters count confidence n'.

Global Instance node_frame_preorder count confidence :
  PreOrder (node_frame count confidence).
Proof.
  split.
  - by intros n.
  - intros n1 n2 n3 [Hid1 H1] [Hid2 H2]. split; [congruence|]. eauto.
Qed.

Global Instance node_frame_exact_preorder count confidence :
  PreOrder (node_frame_exact count confidence).
Proof.
  split.
  - by intros n.
  - intros n1 n2 n3 [Hid1 H1] [Hid2 H2]. split; [congruence|].
    intros key ??. rewrite H2, H1; done.
Qed.

Global Instance keeps_scalar_preorder count confidence :
  PreOrder (keeps_scalar count confidence).
Proof.
  split.
  - intros n Hs. exact Hs.
  - intros n1 n2 n3 H1 H2 Hs. apply H2, H1, Hs.
Qed.


Lemma node_write_frame count confidence key n n' :
  key = count \/ key = confidence ->
  node_write key n n' -> node_frame_exact count confidence n n'.
Proof.
  intros Hkey (v & p & x & Hp & ->). split; [done|]. intros k Hc Hd. cbn.
  rewrite lookup_insert_ne; [done|]. intros ->. by destruct Hkey.
Qed.




(** *** The pre-pass *)

Lemma reset_node_counters count confidence n :
  properties (reset_node count confidence n) !! count = Some [F_of_Z 0] /\
  properties (reset_node count confidence n) !! confidence = Some [F_of_Z 0].
Proof.
  unfold reset_node, Property_of_value. cbn. split.
  - destruct (decide (confidence = count)) as [->|Hne].
    + apply lookup_insert_eq.
    + rewrite lookup_insert_ne by done. apply lookup_insert_eq.
  - apply lookup_insert_eq.
Qed.

Lemma reset_node_frame count confidence n :
  node_frame_exact count confidence n (reset_node count confidence n).
Proof.
  split; [done|]. intros key Hc Hd. unfold reset_node. cbn.
  by rewrite !lookup_insert_ne.
Qed.


(** Two nodes that differ in their counters only are reset to the same
    node. *)
Lemma reset_node_absorbs count confidence n n' :
  node_frame_exact count confidence n n' ->
  reset_node count confidence n' = reset_node count confidence n.
Proof.
  intros [Hid Hk]. unfold reset_node, set_properties. rewrite Hid. f_equal.
  apply map_eq. intros key.
  destruct (decide (key = confidence)) as [->|Hd].
  { by rewrite !lookup_insert_eq. }
  rewrite !(lookup_insert_ne _ confidence) by done.
  destruct (decide (key = count)) as [->|Hc].
  { by rewrite !lookup_insert_eq. }
  rewrite !lookup_insert_ne by done. by apply Hk.
Qed.

Lemma calculate_unfold r2r prior count confidence s :
  calculate_node_importance r2r prior count confidence s =
  for_each r2r (score_path prior count confidence) (reset_node count confidence <$> s).
Proof. done. Qed.


(** *** Nodes off the scored paths *)

Definition untouched_at (j : nat) : relation (list (Node F)) :=
  fun s t => t !! j = s !! j.

Global Instance untouched_at_preorder j : PreOrder (untouched_at j).
Proof.
  split.
  - by intros s.
  - intros s1 s2 s3 H1 H2. unfold untouched_at in *. congruence.
Qed.

Lemma score_path_skipped prior count confidence path s :
  (path_length path <= 0)%Z ->
  score_path prior count confidence path s = (s, Ok tt).
Proof.
  intros Hlen. unfold score_path.
  destruct (0 <? path_length path)%Z eqn:Hlt; [|done].
  apply Z.ltb_lt in Hlt. lia.
Qed.

Lemma paths_untouched r2r prior count confidence i s :
  ~ on_scored_path r2r i ->
  (for_each r2r (score_path prior count confidence) s).1 !! N.to_nat i = s !! N.to_nat i.
Proof.
  intros Hoff. revert s. change (preserves (untouched_at (N.to_nat i))
    (for_each r2r (score_path prior count confidence))).
  apply paths_preserve; [apply _| |].
  - intros i' key s1 s2 Hon [->|(n & n' & Hn & _ & ->)]; [done|].
    unfold untouched_at. apply list_lookup_insert_ne.
    intros Heq%(inj N.to_nat). by subst.
  - intros i' key s1 s2 Hon _ (n & n' & Hn & _ & ->).
    unfold untouched_at. apply list_lookup_insert_ne.
    intros Heq%(inj N.to_nat). by subst.
Qed.

(** C7.  The pre-pass sets [count[0]] and [confidence[0]] to 0 on every
    node; a path with no edge ([|P| - 1 <= 0]) is skipped and changes no
    node; hence after the scorer has run (also when it stops on an
    exception) every node that lies on no path with at least one edge has
    [count[0] == 0] and [confidence[0] == 0]. *)
Theorem scorer_resets_nodes_off_paths r2r prior count confidence s :
  (forall n, n ∈ (reset count confidence s).1 ->
     properties n !! count = Some [F_of_Z 0] /\
     properties n !! confidence = Some [F_of_Z 0]) /\
  (forall path s', (path_length path <= 0)%Z ->
     score_path prior count confidence path s' = (s', Ok tt)) /\
  (forall i, (N.to_nat i < length s)%nat -> ~ on_scored_path r2r i ->
     let t := (calculate_node_importance r2r prior count confidence s).1 in
     counter t i count = Some (F_of_Z 0) /\
     counter t i confidence = Some (F_of_Z 0)).
Proof.
  split_and!.
  - intros n [n0 [-> _]]%list_elem_of_fmap. apply reset_node_counters.
  - intros path s'. apply score_path_skipped.
  - intros i Hi Hoff. cbn zeta. rewrite calculate_unfold. unfold counter.
    rewrite (paths_untouched _ _ _ _ _ _ Hoff), list_lookup_fmap.
    destruct (lookup_lt_is_Some_2 s _ Hi) as [n ->].
    destruct (reset_node_counters count confidence n) as [Hc Hd].
    cbn [fmap option_fmap option_map]. by rewrite Hc, Hd.
Qed.

(** *** What the scorer changes *)



Lemma paths_frame_exact r2r prior count confidence s t :
  for_each r2r (score_path prior count confidence) s = (t, Ok tt) ->
  Forall2 (node_frame_exact count confidence) s t.
Proof.
  revert s t. cut (preserves_ok (Forall2 (node_frame_exact count confidence))
    (for_each r2r (score_path prior count confidence))).
  { intros Hp s t. apply Hp. }
  apply paths_preserve_ok; [apply _|].
  intros i key s1 s2 Hkey. apply step_write_Forall2; [apply _|].
  intros n n'. by apply node_write_frame.
Qed.

Lemma reset_frame_exact count confidence s :
  Forall2 (node_frame_exact count confidence) s (reset_node count confidence <$> s).
Proof.
  apply Forall2_fmap_r, Forall_Forall2_diag, Forall_forall.
  intros n _. apply reset_node_frame.
Qed.


(** *** Running the scorer again *)

(** C8.  The scorer is a function of the node vector, the paths and the
    three names, so two runs from the same inputs agree; and a second run
    right after a first one that returned normally returns normally with
    the very same node vector, hence with the same [count] and
    [confidence] on every node. *)
Theorem scorer_deterministic r2r prior count confidence s t :
  calculate_node_importance r2r prior count confidence s = (t, Ok tt) ->
  calculate_node_importance r2r prior count confidence t = (t, Ok tt) /\
  forall i,
    counter (calculate_node_importance r2r prior count confidence t).1 i count =
      counter t i count /\
    counter (calculate_node_importance r2r prior count confidence t).1 i confidence =
      counter t i confidence.
Proof.
  intros Hrun.
  assert (calculate_node_importance r2r prior count confidence t = (t, Ok tt)) as Hagain.
  { rewrite calculate_unfold in Hrun |- *.
    apply paths_frame_exact in Hrun as Hexact.
    assert (reset_node count confidence <$> t = reset_node count confidence <$> s) as ->; [|done].
    apply list_eq_Forall2, Forall2_fmap.
    pose proof (reset_frame_exact count confidence s) as Hreset.
    assert (Forall2 (node_frame_exact count confidence) s t) as Hst by (by etrans).
    apply Forall2_flip. eapply Forall2_impl; [exact Hst|].
    intros n n' Hnn. cbn. by apply reset_node_absorbs. }
  split; [done|]. intros i. by rewrite Hagain.
Qed.


(** *** A single path of one edge *)

(** Lines 32-36 for one entry of the path: both counters of the node are
    incremented. *)
Lemma visit_node count confidence score i s n c pc d pd :
  count <> confidence ->
  s !! N.to_nat i = Some n ->
  properties n !! count = Some (c :: pc) ->
  properties n !! confidence = Some (d :: pd) ->
  exists n',
    bind (get_node i) (fun _ =>
      bind (add0 i count (F_of_Z 1)) (fun _ => add0 i confidence score)) s
      = (<[N.to_nat i := n']> s, Ok tt) /\
    properties n' !! count = Some (fadd c (F_of_Z 1) :: pc) /\
    properties n' !! confidence = Some (fadd d score :: pd).
Proof.
  intros Hne Hn Hc Hd.
  set (n1 := set_properties n (<[count := fadd c (F_of_Z 1) :: pc]> (properties n))).
  set (n2 := set_properties n1 (<[confidence := fadd d score :: pd]> (properties n1))).
  exists n2. split_and!.
  - unfold bind at 1. rewrite (get_node_ok _ _ _ Hn).
    unfold bind. rewrite (add0_present _ _ _ _ _ _ (F_of_Z 1) Hn Hc).
    fold n1.
    assert (<[N.to_nat i := n1]> s !! N.to_nat i = Some n1) as Hn1.
    { apply list_lookup_insert_eq. by eapply lookup_lt_Some. }
    assert (properties n1 !! confidence = Some (d :: pd)) as Hd1.
    { unfold n1. cbn. by rewrite lookup_insert_ne. }
    rewrite (add0_present _ _ _ _ _ _ score Hn1 Hd1). fold n2.
    by rewrite list_insert_insert_eq.
  - unfold n2, n1. cbn. rewrite lookup_insert_ne by done. apply lookup_insert_eq.
  - unfold n2. cbn. apply lookup_insert_eq.
Qed.

Lemma counter_insert_eq s i n key :
  (N.to_nat i < length s)%nat ->
  counter (<[N.to_nat i := n]> s) i key =
    match properties n !! key with Some p => p !! 0%nat | None => None end.
Proof. intros Hi. unfold counter. by rewrite list_lookup_insert_eq. Qed.

Lemma counter_insert_ne s i j n key :
  i <> j -> counter (<[N.to_nat i := n]> s) j key = counter s j key.
Proof.
  intros Hne. unfold counter. rewrite list_lookup_insert_ne; [done|].
  intros Heq%(inj N.to_nat). done.
Qed.

(** C2, as amended.  When the prior, count and confidence names are pairwise
    distinct, [a] and [b] are nodes of the graph and their prior properties
    have first elements [p_a] and [p_b], the scorer run on the single path
    [(a, w0), (b, w)] returns normally; with
    [score = exp(-((w - log(sqrt p_a) - log(sqrt p_b)) / 1))], each of the two
    entries of the path adds 1 to [count[0]] and [score] to [confidence[0]]
    of its node, starting from the 0 of the pre-pass: once on [a] and once
    on [b] when they differ, twice on the same node when [a = b]. *)
Theorem scorer_single_edge_path s a b w0 w na nb p_a ra p_b rb prior count confidence :
  prior <> count -> prior <> confidence -> count <> confidence ->
  s !! N.to_nat a = Some na -> properties na !! prior = Some (p_a :: ra) ->
  s !! N.to_nat b = Some nb -> properties nb !! prior = Some (p_b :: rb) ->
  let score :=
    fexp (fneg (fdiv (fsub (fsub w (flog (fsqrt p_a))) (flog (fsqrt p_b))) (F_of_Z 1))) in
  exists t,
    calculate_node_importance [[mkDecoratedNode a w0; mkDecoratedNode b w]]
      prior count confidence s = (t, Ok tt) /\
    (a <> b ->
       counter t a count = Some (fadd (F_of_Z 0) (F_of_Z 1)) /\
       counter t a confidence = Some (fadd (F_of_Z 0) score) /\
       counter t b count = Some (fadd (F_of_Z 0) (F_of_Z 1)) /\
       counter t b confidence = Some (fadd (F_of_Z 0) score)) /\
    (a = b ->
       counter t a count = Some (fadd (fadd (F_of_Z 0) (F_of_Z 1)) (F_of_Z 1)) /\
       counter t a confidence = Some (fadd (fadd (F_of_Z 0) score) score)).
Proof.
  intros Hpc Hpd Hcd Ha Hpa Hb Hpb score.
  rewrite calculate_unfold. set (s0 := reset_node count confidence <$> s).
  assert (forall i n, s !! N.to_nat i = Some n ->
            s0 !! N.to_nat i = Some (reset_node count confidence n)) as Hs0.
  { intros i n Hn. unfold s0. by rewrite list_lookup_fmap, Hn. }
  assert (forall n p, properties n !! prior = Some p ->
            properties (reset_node count confidence n) !! prior = Some p) as Hprior.
  { intros n p Hp. unfold reset_node. cbn. by rewrite !lookup_insert_ne. }
  pose proof (Hs0 _ _ Ha) as Ha0. pose proof (Hs0 _ _ Hb) as Hb0.
  destruct (reset_node_counters count confidence na) as [Hac Had].
  destruct (reset_node_counters count confidence nb) as [Hbc Hbd].
  assert (N.to_nat a < length s0)%nat as Hla by (by eapply lookup_lt_Some).
  assert (N.to_nat b < length s0)%nat as Hlb by (by eapply lookup_lt_Some).
  destruct (visit_node count confidence score a s0 _ _ _ _ _ Hcd Ha0 Hac Had)
    as (na' & Hrun_a & Hac' & Had').
  set (s1 := <[N.to_nat a := na']> s0) in *.
  cbn [for_each]. unfold bind at 1, ret at 1. unfold score_path.
  change (path_length [mkDecoratedNode a w0; mkDecoratedNode b w]) with 1%Z.
  cbn [Z.ltb Z.compare head last hd_error dn_id dn_weight].
  unfold bind at 1. rewrite (read0_present _ _ _ _ _ _ Ha0 (Hprior _ _ Hpa)).
  unfold bind at 1. rewrite (read0_present _ _ _ _ _ _ Hb0 (Hprior _ _ Hpb)).
  cbn [for_each dn_id]. fold (score_of w (flog (fsqrt p_a)) (flog (fsqrt p_b)) 1).
  change (score_of w (flog (fsqrt p_a)) (flog (fsqrt p_b)) 1) with score.
  unfold bind at 1. rewrite Hrun_a. fold s1.
  destruct (decide (a = b)) as [<-|Hab].
  - assert (s1 !! N.to_nat a = Some na') as Ha1 by (by apply list_lookup_insert_eq).
    destruct (visit_node count confidence score a s1 _ _ _ _ _ Hcd Ha1 Hac' Had')
      as (na'' & Hrun_b & Hac'' & Had'').
    unfold bind at 1. rewrite Hrun_b. unfold ret.
    eexists. split; [done|]. split; [done|]. intros _.
    assert (N.to_nat a < length s1)%nat by (unfold s1; by rewrite length_insert).
    rewrite !counter_insert_eq by done. by rewrite Hac'', Had''.
  - assert (s1 !! N.to_nat b = Some (reset_node count confidence nb)) as Hb1.
    { unfold s1. rewrite list_lookup_insert_ne; [done|]. by intros ?%(inj N.to_nat). }
    destruct (visit_node count confidence score b s1 _ _ _ _ _ Hcd Hb1 Hbc Hbd)
      as (nb' & Hrun_b & Hbc' & Hbd').
    unfold bind at 1. rewrite Hrun_b. unfold ret.
    eexists. split; [done|]. split; [|done]. intros _.
    assert (N.to_nat b < length s1)%nat by (unfold s1; by rewrite length_insert).
    rewrite !(counter_insert_ne _ b a) by done.
    unfold s1. rewrite !counter_insert_eq by done.
    by rewrite Hac', Had', Hbc', Hbd'.
Qed.

End ScorerProofs.

(** *** The scorer on the example graph *)

Lemma scorer_single_edge_path_witness :
  exists t,
    calculate_node_importance example_r2r "prior" "count" "confidence" example_nodes
      = (t, Ok tt) /\
    counter t 0 "count" = Some (EConst 1) /\
    counter t 0 "confidence" = Some (EAdd (EConst 0) example_score) /\
    counter t 1 "count" = Some (EConst 1) /\
    counter t 1 "confidence" = Some (EAdd (EConst 0) example_score).
Proof.
  destruct (scorer_single_edge_path example_nodes 0 1 (EConst 0) (EConst 2)
              (mkNode 0 {[ "prior"%string := [EConst 7] ]})
              (mkNode 1 {[ "prior"%string := [EConst 7] ]})
              (EConst 7) [] (EConst 7) [] "prior" "count" "confidence")
    as (t & Hrun & Hne & _); try reflexivity; try discriminate.
  exists t. split; [exact Hrun|]. apply Hne. discriminate.
Defined.

(** With one name given for both counters the code adds 1 and then the
    score to the same element: [confidence[0]] ends as [1 + score], not as
    the [0 + score] of an increment by the score alone. *)
Lemma scorer_single_edge_path_counterexample :
  exists t,
    calculate_node_importance example_r2r "prior" "c" "c" example_nodes = (t, Ok tt) /\
    counter t 0 "c" = Some (EAdd (EConst 1) example_score) /\
    counter t 0 "c" <> Some (fadd (F_of_Z 0) example_score).
Proof.
  eexists. split; [vm_compute; reflexivity|]. split; [vm_compute; reflexivity|].
  vm_compute. discriminate.
Qed.

Lemma scorer_resets_nodes_off_paths_witness :
  counter (calculate_node_importance example_r2r "prior" "count" "confidence"
             example_nodes).1 2 "count" = Some (EConst 0) /\
  counter (calculate_node_importance example_r2r "prior" "count" "confidence"
             example_nodes).1 2 "confidence" = Some (EConst 0).
Proof.
  destruct (scorer_resets_nodes_off_paths example_r2r "prior" "count" "confidence"
              example_nodes) as (_ & _ & Hoff).
  apply (Hoff 2).
  - cbn. lia.
  - intros (path & Hpath & _ & Hi). apply list_elem_of_singleton in Hpath as ->.
    apply list_elem_of_In in Hi. cbn in Hi. intuition discriminate.
Defined.


Lemma scorer_deterministic_witness :
  let t := (calculate_node_importance example_r2r "prior" "count" "confidence"
              example_nodes).1 in
  calculate_node_importance example_r2r "prior" "count" "confidence" t = (t, Ok tt).
Proof.
  intros t.
  apply (scorer_deterministic example_r2r "prior" "count" "confidence" example_nodes t).
  vm_compute. reflexivity.
Defined.

(** * Properties of the matrix projection *)

Global Instance expr_exact bound : ExactIntegers expr bound.
Proof. by split. Qed.

Section MatrixProofs.
Context {F W : Type} `{Floating F} `{TypeSizes}.
Context (bound : Z) `{!ExactIntegers F bound}.
Implicit Types (n : Node F) (cell : nat) (w : F).

(** Invariant I5 for one node, with the cell it addresses: the position has
    at least three elements, the integers [x], [y], [z], inside the grid;
    the weight property has a first element [w]. *)
Definition node_cell (rows columns slices : N) (weight_key pos_key : string)
    n cell w : Prop :=
  exists (x y z : N) rest wrest,
    properties n !! pos_key = Some (F_of_id x :: F_of_id y :: F_of_id z :: rest) /\
    properties n !! weight_key = Some (w :: wrest) /\
    x < rows /\ y < columns /\ z < slices /\
    cell = N.to_nat (z + y * slices + x * columns * slices).

Lemma flat_index_bound rows columns slices x y z :
  x < rows -> y < columns -> z < slices ->
  z + y * slices + x * columns * slices < rows * columns * slices.
Proof.
  intros Hx Hy Hz.
  assert ((y + 1) * slices <= columns * slices) as H1
    by (apply N.mul_le_mono_r; lia).
  assert ((x + 1) * (columns * slices) <= rows * (columns * slices)) as H2
    by (apply N.mul_le_mono_r; lia).
  lia.
Qed.

(** The index expression is exact on a position inside the grid. *)
Lemma flat_index_exact rows columns slices x y z rest :
  (Z.of_N (rows * columns * slices) <= bound)%Z ->
  x < rows -> y < columns -> z < slices ->
  flat_index (F_of_id x :: F_of_id y :: F_of_id z :: rest) columns slices =
    Ok (F_of_id (z + y * slices + x * columns * slices)).
Proof.
  intros Hb Hx Hy Hz. unfold flat_index, Property_at. cbn. unfold mret, result_ret.
  f_equal. unfold F_of_id.
  pose proof (flat_index_bound _ _ _ _ _ _ Hx Hy Hz) as Hlt.
  rewrite (fmul_exact (Z.of_N y) (Z.of_N slices)) by nia.
  rewrite (fmul_exact (Z.of_N x) (Z.of_N columns)) by nia.
  rewrite (fmul_exact (Z.of_N x * Z.of_N columns) (Z.of_N slices)) by nia.
  rewrite (fadd_exact (Z.of_N z)) by nia.
  rewrite fadd_exact by nia.
  f_equal. lia.
Qed.

(** One iteration of the loop on a node that satisfies I5. *)
Lemma project_node_step rows columns slices weight_key pos_key n cell w ns weights :
  (Z.of_N (rows * columns * slices) <= bound)%Z ->
  rows * columns * slices < size_t_modulus ->
  length weights = N.to_nat (rows * columns * slices) ->
  node_cell rows columns slices weight_key pos_key n cell w ->
  (cell < length weights)%nat /\
  project_nodes (n :: ns) columns slices weight_key pos_key weights =
    project_nodes ns columns slices weight_key pos_key (<[cell := w]> weights).
Proof.
  intros Hb Hsz Hlen (x & y & z & rest & wrest & Hpos & Hw & Hx & Hy & Hz & ->).
  pose proof (flat_index_bound _ _ _ _ _ _ Hx Hy Hz) as Hlt.
  split; [lia|].
  cbn [project_nodes]. unfold map_at. rewrite Hpos, Hw. cbn [mbind result_bind].
  unfold Property_at at 1. cbn [lookup list_lookup].
  rewrite (flat_index_exact rows) by done. cbn [mbind result_bind].
  unfold F_of_id. rewrite F_to_Z_exact by lia.
  unfold vector_at_put.
  replace (_ || _) with false.
  2:{ symmetry. apply orb_false_intro; [apply Z.ltb_ge|apply Z.leb_gt]; lia. }
  rewrite <-Z_N_nat, N2Z.id.
  destruct (Nat.ltb_spec
    (N.to_nat (z + y * slices + x * columns * slices)) (length weights)); [done|lia].
Qed.

(** The cell and the weight of a node are determined by the node. *)
Lemma node_cell_unique rows columns slices weight_key pos_key n cell w cell' w' :
  (Z.of_N (rows * columns * slices) <= bound)%Z ->
  node_cell rows columns slices weight_key pos_key n cell w ->
  node_cell rows columns slices weight_key pos_key n cell' w' ->
  cell = cell' /\ w = w'.
Proof.
  intros Hb (x & y & z & rest & wrest & Hpos & Hw & Hx & Hy & Hz & ->)
            (x' & y' & z' & rest' & wrest' & Hpos' & Hw' & Hx' & Hy' & Hz' & ->).
  rewrite Hpos in Hpos'. rewrite Hw in Hw'.
  injection Hpos' as Hex Hey Hez _. injection Hw' as -> _.
  assert (rows * 1 * 1 <= rows * columns * slices) as Hr
    by (apply N.mul_le_mono; [apply N.mul_le_mono|]; lia).
  assert (1 * columns * 1 <= rows * columns * slices) as Hc
    by (apply N.mul_le_mono; [apply N.mul_le_mono|]; lia).
  assert (1 * 1 * slices <= rows * columns * slices) as Hs
    by (apply N.mul_le_mono; [apply N.mul_le_mono|]; lia).
  assert (forall a a', a <= rows * columns * slices -> a' <= rows * columns * slices ->
            F_of_id a = F_of_id a' -> a = a') as Hinj.
  { intros a a' Ha Ha' Heq. apply (f_equal F_to_Z) in Heq. unfold F_of_id in Heq.
    rewrite !F_to_Z_exact in Heq by lia. lia. }
  apply Hinj in Hex; [|lia..]. apply Hinj in Hey; [|lia..]. apply Hinj in Hez; [|lia..].
  by subst.
Qed.

(** The loop, from any vector of the right length: the cells no node
    addresses are left alone, and a cell holds the weight of the last node
    that addresses it. *)
Lemma project_nodes_spec rows columns slices weight_key pos_key ns :
  (Z.of_N (rows * columns * slices) <= bound)%Z ->
  rows * columns * slices < size_t_modulus ->
  (forall n, n ∈ ns ->
     exists cell w, node_cell rows columns slices weight_key pos_key n cell w) ->
  forall weights, length weights = N.to_nat (rows * columns * slices) ->
  exists m,
    project_nodes ns columns slices weight_key pos_key weights = Ok m /\
    length m = length weights /\
    (forall cell,
       (forall n w, n ∈ ns ->
          ~ node_cell rows columns slices weight_key pos_key n cell w) ->
       m !! cell = weights !! cell) /\
    (forall i n cell w,
       ns !! i = Some n ->
       node_cell rows columns slices weight_key pos_key n cell w ->
       (forall j n' w', (i < j)%nat -> ns !! j = Some n' ->
          ~ node_cell rows columns slices weight_key pos_key n' cell w') ->
       m !! cell = Some w).
Proof.
  intros Hb Hsz. induction ns as [|n ns IH]; intros HI5 weights Hlen.
  - exists weights. split_and!; [done|done|done|]. intros i n cell w Hi. done.
  - destruct (HI5 n) as (cell0 & w0 & Hcell0); [by left|].
    destruct (project_node_step rows columns slices weight_key pos_key
                n cell0 w0 ns weights Hb Hsz Hlen Hcell0) as [Hlt ->].
    destruct (IH (fun n' Hn' => HI5 n' (list_elem_of_further _ _ _ Hn'))
                 (<[cell0 := w0]> weights)) as (m & Hrun & Hlm & Hfree & Hlast).
    { by rewrite length_insert. }
    exists m. split_and!; [done|by rewrite Hlm, length_insert| |].
    + intros cell Hnone. rewrite Hfree.
      * apply list_lookup_insert_ne. intros <-. by apply (Hnone n w0); [left|].
      * intros n' w' Hn'. apply Hnone. by right.
    + intros [|i] n' cell w Hi Hcell Hlater.
      * injection Hi as <-.
        destruct (node_cell_unique _ _ _ _ _ _ _ _ _ _ Hb Hcell0 Hcell) as [<- <-].
        rewrite Hfree; [by apply list_lookup_insert_eq|].
        intros n' w' [j Hj]%list_elem_of_lookup. apply (Hlater (S j)); [lia|done].
      * apply (Hlast i n'); [done|done|].
        intros j n'' w'' Hij Hj. apply (Hlater (S j)); [lia|done].
Qed.

(** C3, as amended.  When [rows * columns * slices] does not wrap around in
    [id_type], fits [std::size_t] and lies in the range where the element
    type is exact on integers, and every node satisfies I5, [as_matrix]
    returns a vector of length [rows * columns * slices]; a node with
    position [(x, y, z)] and weight [w] whose cell
    [z + y * slices + x * columns * slices] is addressed by no later node
    has [w] in that cell, and every cell addressed by no node holds 0. *)
Theorem as_matrix_projection (g : Graph F W) rows columns slices weight_key pos_key :
  (Z.of_N (rows * columns * slices) <= bound)%Z ->
  rows * columns * slices < id_modulus ->
  rows * columns * slices < size_t_modulus ->
  (forall n, n ∈ nodes_ g ->
     exists cell w, node_cell rows columns slices weight_key pos_key n cell w) ->
  exists m,
    as_matrix g rows columns slices weight_key pos_key = Ok m /\
    length m = N.to_nat (rows * columns * slices) /\
    (forall i n cell w,
       nodes_ g !! i = Some n ->
       node_cell rows columns slices weight_key pos_key n cell w ->
       (forall j n' w', (i < j)%nat -> nodes_ g !! j = Some n' ->
          ~ node_cell rows columns slices weight_key pos_key n' cell w') ->
       m !! cell = Some w) /\
    (forall cell, (cell < N.to_nat (rows * columns * slices))%nat ->
       (forall n w, n ∈ nodes_ g ->
          ~ node_cell rows columns slices weight_key pos_key n cell w) ->
       m !! cell = Some (F_of_Z 0)).
Proof.
  intros Hb Hid Hsz HI5. unfold as_matrix.
  assert (id_wrap (id_wrap (rows * columns) * slices) = rows * columns * slices) as ->.
  { unfold id_wrap. rewrite N.Div0.mul_mod_idemp_l. by apply N.mod_small. }
  destruct (project_nodes_spec rows columns slices weight_key pos_key (nodes_ g)
              Hb Hsz HI5 (replicate (N.to_nat (rows * columns * slices)) (F_of_Z 0)))
    as (m & Hrun & Hlm & Hfree & Hlast).
  { apply length_replicate. }
  rewrite length_replicate in Hlm.
  exists m. split_and!; [done|done|done|].
  intros cell Hcell Hnone. rewrite (Hfree cell Hnone).
  by apply lookup_replicate_2.
Qed.
End MatrixProofs.

(** *** The projection on the example graphs *)

Lemma grid_node_cell rows columns slices i (x y z : N) w :
  x < rows -> y < columns -> z < slices ->
  node_cell rows columns slices "weight" "pos"
    (grid_node i (Z.of_N x) (Z.of_N y) (Z.of_N z) w)
    (N.to_nat (z + y * slices + x * columns * slices)) (EConst w).
Proof. intros Hx Hy Hz. by exists x, y, z, [], []. Qed.

Lemma grid_node_cell_inv rows columns slices i (x y z : N) w cell w' :
  node_cell rows columns slices "weight" "pos"
    (grid_node i (Z.of_N x) (Z.of_N y) (Z.of_N z) w) cell w' ->
  cell = N.to_nat (z + y * slices + x * columns * slices).
Proof.
  intros (x' & y' & z' & rest & wrest & Hpos & _ & _ & _ & _ & ->).
  change (Some [EConst (Z.of_N x); EConst (Z.of_N y); EConst (Z.of_N z)] =
          Some (EConst (Z.of_N x') :: EConst (Z.of_N y') :: EConst (Z.of_N z') :: rest))
    in Hpos.
  injection Hpos as Hx Hy Hz _.
  apply (inj Z.of_N) in Hx, Hy, Hz. by subst.
Qed.

Lemma as_matrix_projection_witness :
  exists m,
    as_matrix (H0 := lp64_sizes) grid_graph 2 2 2 "weight" "pos" = Ok m /\
    length m = 8%nat /\
    m !! 2%nat = Some (EConst 25) /\
    m !! 1%nat = Some (EConst 0).
Proof.
  destruct (as_matrix_projection (H0 := lp64_sizes) (2 ^ 53) grid_graph 2 2 2
              "weight" "pos") as (m & Hrun & Hlen & Hlast & Hfree).
  - cbn. lia.
  - reflexivity.
  - reflexivity.
  - intros n Hn. apply list_elem_of_In in Hn. cbn in Hn.
    destruct Hn as [<-|[<-|[<-|[]]]]; eexists _, _.
    + apply (grid_node_cell 2 2 2 0 0 0 0); reflexivity.
    + apply (grid_node_cell 2 2 2 1 1 1 1); reflexivity.
    + apply (grid_node_cell 2 2 2 2 0 1 0); reflexivity.
  - exists m. split; [exact Hrun|]. split; [exact Hlen|]. split.
    + apply (Hlast 2%nat (grid_node 2 0 1 0 25) 2%nat (EConst 25)).
      * reflexivity.
      * apply (grid_node_cell 2 2 2 2 0 1 0); reflexivity.
      * intros [|[|[|j]]] n' w' Hj Hn'; try lia. discriminate Hn'.
    + apply Hfree; [cbn; lia|].
      intros n w Hn Hcell. apply list_elem_of_In in Hn. cbn in Hn.
      destruct Hn as [<-|[<-|[<-|[]]]].
      * apply (grid_node_cell_inv 2 2 2 0 0 0 0) in Hcell. discriminate Hcell.
      * apply (grid_node_cell_inv 2 2 2 1 1 1 1) in Hcell. discriminate Hcell.
      * apply (grid_node_cell_inv 2 2 2 2 0 1 0) in Hcell. discriminate Hcell.
Defined.

(** With 64-bit ids the product [2^32 * 2^32 * 1] wraps around to 0: the
    vector is empty and the write for the node at the origin, which
    satisfies I5, throws. *)
Lemma as_matrix_projection_counterexample :
  node_cell (2 ^ 32) (2 ^ 32) 1 "weight" "pos" (grid_node 0 0 0 0 5) 0 (EConst 5) /\
  as_matrix (H0 := lp64_sizes) origin_graph (2 ^ 32) (2 ^ 32) 1 "weight" "pos"
    = Throw out_of_range.
Proof.
  split.
  - apply (grid_node_cell (2 ^ 32) (2 ^ 32) 1 0 0 0 0); reflexivity.
  - vm_compute. reflexivity.
Qed.

(** * Properties of the binary codec *)

Section CodecProofs.
Context `{TypeSizes} {F W : Type}.
Context `{!Wire F sizeof_property_type} `{!Wire W sizeof_weight_type}.
Implicit Types (header : Header.t) (stream file : istream).

(** *** The data section throws nothing of its own *)

Lemma slice_properties_throw schema start total property_values
    (properties : gmap string (Property F)) e :
  slice_properties schema start total property_values properties = Throw e ->
  e = undefined_behaviour.
Proof.
  revert start properties. induction schema as [|[name elements] schema IH];
    intros start properties; cbn [slice_properties]; [done|].
  destruct (start + elements <=? total); [apply IH|congruence].
Qed.

Lemma read_nodes_throw count i stream property_values header (nodes : list (Node F)) e :
  read_nodes count i stream property_values header nodes = Throw e ->
  e = undefined_behaviour.
Proof.
  revert i stream property_values nodes.
  induction count as [|count IH]; intros i stream property_values nodes;
    cbn [read_nodes]; [done|].
  destruct (read stream id_size _) as [stream1 ?].
  destruct (read stream1 _ property_values) as [stream2 property_values'].
  destruct (slice_properties _ _ _ _ _) as [properties|e'] eqn:Hslice;
    cbn [mbind result_bind].
  - apply IH.
  - intros [= <-]. by eapply slice_properties_throw.
Qed.

Lemma read_edges_throw count stream (edges : list (list (Edge W))) e :
  read_edges count stream edges = Throw e -> e = undefined_behaviour.
Proof.
  revert stream edges. induction count as [|count IH]; intros stream edges;
    cbn [read_edges]; [done|].
  destruct (read stream edge_bytes []) as [stream' e_info].
  destruct (good stream'); [|congruence].
  destruct (edges !! _); [apply IH|congruence].
Qed.

Lemma parse_data_throw stream header e :
  parse_data (F:=F) (W:=W) stream header = Throw e -> e = undefined_behaviour.
Proof.
  unfold parse_data.
  destruct (read_nodes _ _ _ _ _ _) as [[stream1 nodes]|e'] eqn:Hnodes;
    cbn [mbind result_bind].
  - destruct (read_edges _ _ _) as [edges|e'] eqn:Hedges; cbn [mbind result_bind].
    + done.
    + intros [= <-]. by eapply read_edges_throw.
  - intros [= <-]. by eapply read_nodes_throw.
Qed.

(** *** Validation of the widths *)

(** The three schema errors of [load_binary]. *)
Definition schema_error (r : option (result (Graph F W))) : Prop :=
  exists what,
    what ∈ [id_size_mismatch; property_size_mismatch; weight_size_mismatch] /\
    r = Some (Throw (runtime_error what)).

(** What the header declares against the sizes of the implementation. *)
Definition width_mismatch header : Prop :=
  Header.node_id_bytes header <> sizeof_id_type \/
  Header.property_element_bytes header <> sizeof_property_type \/
  sizeof_weight_type < Header.edge_weight_bytes header.

(** C5.  On a file whose header parses, [load_binary] fails with a schema
    error exactly when the header's [node_id_bytes] differs from the size of
    the id type, or its [property_element_bytes] differs from the size of
    the element type, or its [edge_weight_bytes] is greater than the size of
    the weight type; when the three checks pass it goes on to the data
    section, whose result it returns. *)
Theorem load_binary_validates_widths uninitialised bytes header file :
  parse_header uninitialised (mk_istream bytes false false) = Some (Ok (header, file)) ->
  (schema_error (load_binary uninitialised (Some bytes)) <-> width_mismatch header) /\
  (~ width_mismatch header ->
   load_binary uninitialised (Some bytes) =
     Some ('(nodes, edges) ← parse_data file header; mret (mkGraph nodes edges))).
Proof.
  intros Hparse. unfold load_binary, width_mismatch. rewrite Hparse.
  destruct (N.eqb_spec (Header.node_id_bytes header) sizeof_id_type) as [Hid|Hid];
    cbn [negb].
  2:{ split; [|tauto]. split; [tauto|]. intros _.
      exists id_size_mismatch. split; [|done]. by left. }
  destruct (N.eqb_spec (Header.property_element_bytes header) sizeof_property_type)
    as [Hpe|Hpe]; cbn [negb].
  2:{ split; [|tauto]. split; [tauto|]. intros _.
      exists property_size_mismatch. split; [|done]. right. by left. }
  destruct (N.ltb_spec sizeof_weight_type (Header.edge_weight_bytes header)) as [Hw|Hw].
  { split; [|tauto]. split; [tauto|]. intros _.
    exists weight_size_mismatch. split; [|done]. right. right. by left. }
  split; [|done]. split; [|lia].
  intros (what & _ & Hthrow). exfalso.
  destruct (parse_data file header) as [[nodes edges]|e] eqn:Hdata;
    cbn [mbind result_bind] in Hthrow; [done|].
  apply parse_data_throw in Hdata. congruence.
Qed.

(** *** The ids of the nodes that are loaded *)

Lemma read_nodes_ids count i stream property_values header (nodes : list (Node F))
    stream' nodes' :
  read_nodes count i stream property_values header nodes = Ok (stream', nodes') ->
  i = N.of_nat (length nodes) ->
  (forall j n, nodes !! j = Some n -> id n = N.of_nat j) ->
  length nodes' = (length nodes + count)%nat /\
  forall j n, nodes' !! j = Some n -> id n = N.of_nat j.
Proof.
  revert i stream property_values nodes.
  induction count as [|count IH]; intros i stream property_values nodes;
    cbn [read_nodes].
  - intros [= <- <-] _ Hids. split; [lia|done].
  - destruct (read stream id_size _) as [stream1 ?].
    destruct (read stream1 _ property_values) as [stream2 property_values'].
    destruct (slice_properties _ _ _ _ _) as [properties|e']; cbn [mbind result_bind];
      [|done].
    intros Hrun Hi Hids. apply IH in Hrun as [Hlen Hids'].
    + split; [|done]. rewrite Hlen, length_app. cbn. lia.
    + rewrite length_app. cbn. lia.
    + intros j n [Hj|[Hle Hj]]%lookup_app_Some; [by apply Hids|].
      destruct (j - length nodes)%nat as [|k] eqn:Hk; [|done].
      injection Hj as <-. cbn. lia.
Qed.

(** C9.  Every graph that [load_binary] returns satisfies I1: the node at
    position [i] has id [i], whatever id bytes the data section holds (the
    id read from the file is not used, the node is built from the loop
    index). *)
Theorem load_binary_ids uninitialised contents (g : Graph F W) :
  load_binary uninitialised contents = Some (Ok g) ->
  forall i n, nodes_ g !! i = Some n -> id n = N.of_nat i.
Proof.
  unfold load_binary. destruct contents as [bytes|]; [|done].
  destruct (parse_header _ _) as [[[header file]|e]|]; [|done|done].
  destruct (negb _); [done|]. destruct (negb _); [done|]. destruct (_ <? _); [done|].
  unfold parse_data.
  destruct (read_nodes _ _ _ _ _ _) as [[stream1 nodes]|e] eqn:Hnodes;
    cbn [mbind result_bind]; [|done].
  destruct (read_edges _ _ _) as [edges|e]; cbn [mbind result_bind mret result_ret];
    [|done].
  intros [= <-]. cbn [nodes_].
  by apply read_nodes_ids in Hnodes as [_ Hids].
Qed.

(** *** Termination of the header parser *)

Lemma break_at_length delim l a r :
  break_at delim l = (a, Some r) -> (length r < length l)%nat.
Proof.
  revert a. induction l as [|c l IH]; intros a; cbn [break_at]; [done|].
  destruct (Ascii.eqb c delim).
  - intros [= <- <-]. cbn. lia.
  - destruct (break_at delim l) as [a' r'] eqn:Hb. intros [= <- ->].
    specialize (IH _ eq_refl). cbn. lia.
Qed.

(** [within fuel file]: a stream that is still good has fewer than [fuel]
    characters left. *)
Definition within (fuel : nat) file : Prop :=
  good file = true -> (length (remaining file) < fuel)%nat.

Lemma getline_within fuel file line :
  within fuel file -> within fuel (getline file line).1.
Proof.
  intros Hw. unfold getline. destruct (good file) eqn:Hgood.
  - destruct (break_at newline (remaining file)) as [l [rest|]] eqn:Hb; cbn.
    + intros _. apply break_at_length in Hb. specialize (Hw Hgood). cbn. lia.
    + intros Hg. unfold good in Hg. cbn in Hg. done.
  - cbn. unfold within, good. cbn. rewrite andb_false_r. done.
Qed.

Lemma getline_within_S fuel file line :
  good file = true -> within (S fuel) file -> within fuel (getline file line).1.
Proof.
  intros Hgood Hw. unfold getline. rewrite Hgood.
  destruct (break_at newline (remaining file)) as [l [rest|]] eqn:Hb; cbn.
  - intros _. apply break_at_length in Hb. specialize (Hw Hgood). cbn. lia.
  - intros Hg. unfold good in Hg. cbn in Hg. done.
Qed.

Lemma parse_entries_within fuel n file line entries file' line' entries' :
  parse_entries n file line entries = Ok (file', line', entries') ->
  within fuel file -> within fuel file'.
Proof.
  revert file line entries. induction n as [|n IH]; intros file line entries;
    cbn [parse_entries].
  - by intros [= <- _ _].
  - pose proof (getline_within fuel file line) as Hg.
    destruct (getline file line) as [file1 line1].
    destruct (parse_entry line1 entries) as [entries1|e]; cbn [mbind result_bind];
      [|done].
    intros Hrun Hw. eapply IH; [exact Hrun|]. by apply Hg.
Qed.

Lemma parse_header_loop_terminates fuel file line header :
  within fuel file -> is_Some (parse_header_loop fuel file line header).
Proof.
  revert file line header. induction fuel as [|fuel IH]; intros file line header Hw.
  - cbn [parse_header_loop]. destruct (good file) eqn:Hgood; [|by eexists].
    specialize (Hw Hgood). lia.
  - cbn [parse_header_loop]. destruct (good file) eqn:Hgood; [|by eexists].
    destruct (negb _); [|by eexists]. cbn [andb].
    pose proof (getline_within_S fuel file line Hgood Hw) as Hw1.
    destruct (getline file line) as [file1 line1]. cbn [fst] in Hw1.
    destruct (bool_decide (line1 = chars "# Header")).
    { destruct (parse_entries 5 file1 line1 ∅) as [[[file2 line2] entries]|e] eqn:He;
        [|by eexists].
      apply IH. by eapply parse_entries_within. }
    destruct (bool_decide (line1 = chars "# Properties")); [|by apply IH].
    pose proof (getline_within fuel file1 line1 Hw1) as Hw2.
    destruct (getline file1 line1) as [file2 line2]. cbn [fst] in Hw2.
    destruct (parse_properties _ _ _) as [[total properties]|e]; [|by eexists].
    by apply IH.
Qed.


End CodecProofs.

(** *** The loader on the example files *)

Lemma load_binary_validates_widths_witness :
  schema_error
    (load_binary (H := lp64_sizes) (Wire0 := word_wire 8) (Wire1 := word_wire 8)
       stale_header (Some narrow_id_file)).
Proof.
  eapply (load_binary_validates_widths (H := lp64_sizes)
            (Wire0 := word_wire 8) (Wire1 := word_wire 8)).
  - vm_compute. reflexivity.
  - left. vm_compute. discriminate.
Defined.

Lemma load_binary_ids_witness :
  load_binary (H := lp64_sizes) (Wire0 := word_wire 8) (Wire1 := word_wire 8)
    stale_header (Some mislabelled_file) = Some (Ok relabelled_graph) /\
  id (relabelled_node 1 9 [4; 5; 6]) = N.of_nat 1.
Proof.
  assert (load_binary (H := lp64_sizes) (Wire0 := word_wire 8) (Wire1 := word_wire 8)
            stale_header (Some mislabelled_file) = Some (Ok relabelled_graph)) as Hload
    by (vm_compute; reflexivity).
  split; [exact Hload|].
  apply (load_binary_ids (H := lp64_sizes) (Wire0 := word_wire 8) (Wire1 := word_wire 8)
           stale_header (Some mislabelled_file) relabelled_graph Hload 1%nat).
  reflexivity.
Defined.

(** C4, evaluated at a file whose header ends before [# Data]: the loop of
    [parse_header] stops at the end of the file and returns the header read
    so far; no error is raised and [load_binary] returns a graph, here of
    two nodes whose property holds what the zeroed buffer held. *)
Theorem load_binary_truncated_header uninitialised :
  load_binary (H := lp64_sizes) (Wire0 := word_wire 8) (Wire1 := word_wire 8)
    uninitialised (Some truncated_file) =
  Some (Ok (mkGraph [ mkNode 0 {[ "prior"%string := [0] ]};
                      mkNode 1 {[ "prior"%string := [0] ]} ]
                    [ []; [] ])).
Proof. vm_compute. reflexivity. Qed.

(** * Decimal output and [std::stoul] *)

(** The value of digits given least significant first. *)
Definition digits_value (ds : list N) : N := foldr (fun d acc => d + 10 * acc) 0 ds.

Lemma digits_rev_S fuel n :
  digits_rev (S fuel) n =
  if n <? 10 then [n] else (n mod 10) :: digits_rev fuel (n / 10).
Proof. done. Qed.

Lemma digits_rev_spec fuel n :
  n < 2 ^ N.of_nat (S fuel) ->
  digits_value (digits_rev (S fuel) n) = n /\
  Forall (fun d => d < 10) (digits_rev (S fuel) n) /\
  (1 <= length (digits_rev (S fuel) n))%nat /\
  n < 10 ^ N.of_nat (length (digits_rev (S fuel) n)) /\
  (1 <= n -> 10 ^ N.of_nat (length (digits_rev (S fuel) n) - 1) <= n).
Proof.
  revert n. induction fuel as [|fuel IH]; intros n Hn.
  - change (2 ^ N.of_nat 1) with 2 in Hn. rewrite digits_rev_S.
    destruct (N.ltb_spec n 10); [|lia]. cbn.
    split_and!; [lia|by repeat constructor|lia|lia|lia].
  - rewrite digits_rev_S. destruct (N.ltb_spec n 10) as [Hlt|Hge].
    { cbn. split_and!; [lia|by repeat constructor|lia|lia|lia]. }
    assert (n / 10 < 2 ^ N.of_nat (S fuel)) as Hdiv.
    { apply N.Div0.div_lt_upper_bound.
      rewrite (Nat2N.inj_succ (S fuel)), N.pow_succ_r' in Hn. lia. }
    destruct (IH _ Hdiv) as (Hval & Hall & Hlen & Hup & Hlow).
    set (ds := digits_rev (S fuel) (n / 10)) in *.
    pose proof (N.div_mod n 10 ltac:(lia)) as Hdm.
    pose proof (N.mod_lt n 10 ltac:(lia)) as Hmod.
    cbn [digits_value foldr length]. fold (digits_value ds). rewrite Hval.
    split_and!.
    + lia.
    + constructor; [done|done].
    + lia.
    + rewrite Nat2N.inj_succ, N.pow_succ_r'. lia.
    + intros _. replace (S (length ds) - 1)%nat with (S (length ds - 1)) by lia.
      rewrite Nat2N.inj_succ, N.pow_succ_r'.
      assert (1 <= n / 10) as H1.
      { apply N.div_le_lower_bound; lia. }
      specialize (Hlow H1).
      generalize dependent (10 ^ N.of_nat (length ds - 1)). intros p Hp.
      clear -Hp Hdm. generalize dependent (n / 10). intros q.
      generalize (n mod 10). intros. lia.
Qed.

Lemma decimal_fuel n : n < 2 ^ N.of_nat (S (N.to_nat (N.log2 n))).
Proof.
  rewrite Nat2N.inj_succ, N2Nat.id. destruct n as [|p]; [done|].
  apply N.log2_spec. lia.
Qed.

Lemma length_decimal n :
  length (decimal n) = length (digits_rev (S (N.to_nat (N.log2 n))) n).
Proof. unfold decimal. by rewrite length_fmap, length_reverse. Qed.


Lemma decimal_upper n : n < 10 ^ N.of_nat (length (decimal n)).
Proof.
  rewrite length_decimal. by destruct (digits_rev_spec _ _ (decimal_fuel n)) as (_&_&_&?&_).
Qed.

Lemma decimal_lower n : 1 <= n -> 10 ^ N.of_nat (length (decimal n) - 1) <= n.
Proof.
  rewrite length_decimal. by destruct (digits_rev_spec _ _ (decimal_fuel n)) as (_&_&_&_&?).
Qed.


(** The reserved width is the least [k] with [2^(8*sizeof(id_type)) <= 10^k]. *)
Lemma ceil_log10_spec x :
  x <= 10 ^ N.of_nat (ceil_log10 x) /\
  forall k, x <= 10 ^ N.of_nat k -> (ceil_log10 x <= k)%nat.
Proof.
  unfold ceil_log10. destruct (N.leb_spec x 1) as [Hle|Hgt].
  { split; [cbn; lia|intros; lia]. }
  split.
  - pose proof (decimal_upper (x - 1)). lia.
  - intros k Hk. pose proof (decimal_lower (x - 1) ltac:(lia)) as Hlow.
    assert (10 ^ N.of_nat (length (decimal (x - 1)) - 1) < 10 ^ N.of_nat k) as Hpow by lia.
    apply N.pow_lt_mono_r_iff in Hpow; lia.
Qed.


(** *** Reading the digits back *)











(** * Properties of [save_binary] *)

Section SaveProofs.
Context `{TypeSizes} {F W : Type}.
Context `{!Wire F sizeof_property_type} `{!Wire W sizeof_weight_type}.
Implicit Types (g : Graph F W).










Lemma length_encode_id x : length (encode_id x) = id_size.
Proof. apply le_bytes_length. Qed.

Lemma length_write_edge i (edge : Edge W) : length (write_edge i edge) = edge_bytes.
Proof.
  unfold write_edge, edge_bytes. rewrite !length_app, !length_encode_id, encode_length.
  unfold weight_size. lia.
Qed.





End SaveProofs.

(** *** The writer on the example graph *)


(** * Lines, tokens and trimming *)

Lemma break_at_app delim l rest :
  delim ∉ l -> break_at delim (l ++ delim :: rest) = (l, Some rest).
Proof.
  induction l as [|c l IH]; intros Hl; cbn [app break_at].
  - by rewrite Ascii.eqb_refl.
  - apply not_elem_of_cons in Hl as [Hc Hl].
    destruct (Ascii.eqb_spec c delim); [congruence|]. by rewrite IH.
Qed.

Lemma getline_line l rest line :
  newline ∉ l ->
  getline (mk_istream (l ++ newline :: rest) false false) line =
    (mk_istream rest false false, l).
Proof.
  intros Hl. unfold getline, good. cbn [eofbit failbit remaining negb andb].
  by rewrite break_at_app.
Qed.

Lemma split_single delim l : delim ∉ l -> split l delim = [l].
Proof.
  induction l as [|c l IH]; intros Hl; cbn [split]; [done|].
  apply not_elem_of_cons in Hl as [Hc Hl].
  destruct (Ascii.eqb_spec c delim); [congruence|]. by rewrite IH.
Qed.

Lemma split_app delim a b :
  delim ∉ a -> split (a ++ delim :: b) delim = a :: split b delim.
Proof.
  induction a as [|c a IH]; intros Ha; cbn [app split].
  - by rewrite Ascii.eqb_refl.
  - apply not_elem_of_cons in Ha as [Hc Ha].
    destruct (Ascii.eqb_spec c delim); [congruence|]. by rewrite IH.
Qed.












(** * Reading back the header that [save_binary] writes *)



(** A character that is none of those of a list written out. *)
Ltac not_in_literal :=
  let Hin := fresh "Hin" in
  intros Hin; apply list_elem_of_In in Hin; cbn in Hin; intuition discriminate.







(** *** The schema line *)


(** The schema of a list of properties: names and dims. *)
Definition schema_list {F} (props : list (string * Property F)) : list (string * N) :=
  (fun kp => (kp.1, N.of_nat (length kp.2))) <$> props.


Section SchemaLine.
Context {F : Type}.
Implicit Types (props : list (string * Property F)).









End SchemaLine.

(** *** The loop of [parse_header] on a header as [save_binary] writes it *)

Section HeaderRoundTrip.
Context `{TypeSizes} {F : Type}.
Implicit Types (props : list (string * Property F)).


Lemma parse_header_loop_S fuel file line header :
  good file = true -> line <> chars "# Data" ->
  parse_header_loop (S fuel) file line header =
    let '(file1, line1) := getline file line in
    if bool_decide (line1 = chars "# Header") then
      match parse_entries 5 file1 line1 ∅ with
      | Throw e => Some (Throw e)
      | Ok (file2, line2, header_entries) =>
          parse_header_loop fuel file2 line2 (set_entries header header_entries)
      end
    else if bool_decide (line1 = chars "# Properties") then
      let '(file2, line2) := getline file1 line1 in
      let line3 := properties_interior line2 in
      match parse_properties (split line3 ",") 0 (Header.properties header) with
      | Throw e => Some (Throw e)
      | Ok (total_elements, properties) =>
          parse_header_loop fuel file2 line3
            (Header.mk (Header.node_count header) (Header.edge_count header)
               (Header.node_id_bytes header) (Header.property_element_bytes header)
               (uint_wrap total_elements) (Header.edge_weight_bytes header)
               properties)
      end
    else parse_header_loop fuel file1 line1 header.
Proof.
  intros Hgood Hline. cbn [parse_header_loop].
  by rewrite Hgood, bool_decide_false.
Qed.




End HeaderRoundTrip.

(** * Reading back the data section that [save_binary] writes *)

Section DataRoundTrip.
Context `{TypeSizes} {F W : Type}.
Context `{!Wire F sizeof_property_type} `{!Wire W sizeof_weight_type}.
Implicit Types (g : Graph F W) (props : list (string * Property F)).

Lemma read_exact (a b buffer : list ascii) :
  read (mk_istream (a ++ b) false false) (length a) buffer =
    (mk_istream b false false, a ++ drop (length a) buffer).
Proof.
  unfold read, good. cbn [eofbit failbit remaining negb andb].
  rewrite take_app_length, drop_app_length.
  by rewrite Nat.ltb_irrefl.
Qed.

Lemma id_modulus_256 : id_modulus = 256 ^ sizeof_id_type.
Proof. unfold id_modulus. by rewrite N.pow_mul_r. Qed.

Lemma decode_encode_id x rest :
  x < id_modulus -> decode_id (take id_size (encode_id x ++ rest)) = x.
Proof.
  intros Hx. rewrite take_app_length' by (by rewrite length_encode_id).
  unfold decode_id, encode_id. apply le_value_bytes.
  by rewrite N2Nat.id, <-id_modulus_256.
Qed.

(** *** The properties of a node *)








(** *** The nodes *)



(** *** The edges *)

(** An edge as the format can hold it. *)
Definition edge_fits (e : Edge W) : Prop :=
  edge_node e < id_modulus /\ representable (edge_weight e).

Lemma read_edges_record m k (e : Edge W) rest (edges : list (list (Edge W))) es :
  k < id_modulus -> edge_fits e -> edges !! N.to_nat k = Some es ->
  read_edges (S m) (mk_istream (write_edge k e ++ rest) false false) edges =
  read_edges m (mk_istream rest false false) (<[N.to_nat k := es ++ [e]]> edges).
Proof.
  intros Hk [Htarget Hweight] Hes. cbn [read_edges].
  rewrite <-(length_write_edge k e), read_exact. rewrite drop_nil, app_nil_r.
  change (good (mk_istream rest false false)) with true. cbn match.
  assert (decode_id (take id_size (write_edge k e)) = k) as ->.
  { unfold write_edge. by apply decode_encode_id. }
  assert (decode_id (take id_size (drop id_size (write_edge k e))) = edge_node e) as ->.
  { unfold write_edge. rewrite drop_app_length' by (by rewrite length_encode_id).
    by apply decode_encode_id. }
  assert (decode (drop (2 * id_size) (write_edge k e)) = edge_weight e) as ->.
  { unfold write_edge. rewrite app_assoc, drop_app_length'.
    - by apply decode_encode.
    - rewrite length_app, !length_encode_id. lia. }
  rewrite Hes. by destruct e.
Qed.




End DataRoundTrip.

(** * Saving and loading *)

Section RoundTrip.
Context `{TypeSizes} {F W : Type}.
Context `{!Wire F sizeof_property_type} `{!Wire W sizeof_weight_type}.
Implicit Types (g : Graph F W).


Definition I2 g : Prop :=
  forall n n', n ∈ nodes_ g -> n' ∈ nodes_ g ->
    schema_list (map_to_list (properties n)) = schema_list (map_to_list (properties n')).







End RoundTrip.

(** *** Saving and loading the example graphs *)





(** * Further properties of the scorer *)

Section ScorerTally.
Context {F : Type} `{Floating F}.
Implicit Types (s t : list (Node F)) (i : N) (path : list (DecoratedNode F)).

(** The score of a path (lines 28-31), from the priors of its two ends in
    the node vector [s]; [None] when an end is no node of [s] or has no first
    prior element. *)
Definition path_score s (prior : string) path : option F :=
  match head path, last path with
  | Some first, Some back =>
      match counter s (dn_id first) prior, counter s (dn_id back) prior with
      | Some p0, Some pn =>
          Some (score_of (dn_weight back) (flog (fsqrt p0)) (flog (fsqrt pn))
                  (path_length path))
      | _, _ => None
      end
  | _, _ => None
  end.

(** What one path contributes to node [i]: its score, once per entry of the
    path that names [i]; nothing when the path has no edge. *)
Definition path_hits s (prior : string) i path : list F :=
  if (0 <? path_length path)%Z then
    match path_score s prior path with
    | Some score => (fun _ => score) <$> filter (fun d => dn_id d = i) path
    | None => []
    end
  else [].

(** The contributions of all the paths to node [i], in the order in which
    the loops meet them. *)
Definition hits s (prior : string) i (r2r : list (list (DecoratedNode F))) : list F :=
  r2r ≫= path_hits s prior i.

(** The two counters after the contributions [l]: [+= 1] and [+= score],
    one after the other, from the 0 of the pre-pass. *)
Definition count_after (l : list F) : F :=
  foldl (fun c _ => fadd c (F_of_Z 1)) (F_of_Z 0) l.

Definition confidence_after (l : list F) : F := foldl fadd (F_of_Z 0) l.

(** A path the loop can score without an exception: its entries are nodes
    of [s], and its two ends have a prior with a first element. *)
Definition path_valid s (prior : string) path : Prop :=
  (0 < path_length path)%Z ->
  is_Some (path_score s prior path) /\
  forall d, d ∈ path -> (N.to_nat (dn_id d) < length s)%nat.

(** The invariant of the two loops: the priors are those of [s], and both
    counters of node [i] hold the contributions [h i] met so far. *)
Definition tallied s (prior count confidence : string) (h : N -> list F) t : Prop :=
  length t = length s /\
  forall i, (N.to_nat i < length s)%nat ->
    counter t i prior = counter s i prior /\
    exists n, t !! N.to_nat i = Some n /\
      properties n !! count = Some [count_after (h i)] /\
      properties n !! confidence = Some [confidence_after (h i)].

Lemma tallied_ext s prior count confidence h h' t :
  (forall i, h i = h' i) ->
  tallied s prior count confidence h t -> tallied s prior count confidence h' t.
Proof.
  intros Heq [Hlen Hinv]. split; [done|]. intros i Hi.
  destruct (Hinv i Hi) as (Hp & n & Hn & Hc & Hd).
  split; [done|]. exists n. by rewrite <-Heq.
Qed.

Lemma counter_Some s i key v :
  counter s i key = Some v ->
  exists n p, s !! N.to_nat i = Some n /\ properties n !! key = Some (v :: p).
Proof.
  unfold counter. destruct (s !! N.to_nat i) as [n|]; [|done].
  destruct (properties n !! key) as [[|v' p]|] eqn:Hp; [done| |done].
  cbn. intros [= ->]. by exists n, p.
Qed.

Lemma read0_counter s i key v : counter s i key = Some v -> read0 i key s = (s, Ok v).
Proof.
  intros (n & p & Hn & Hp)%counter_Some. by eapply read0_present.
Qed.

(** Lines 33-35 on a node whose counters have dim 1. *)
Lemma visit_node_run count confidence score i t n c d :
  count <> confidence ->
  t !! N.to_nat i = Some n ->
  properties n !! count = Some [c] ->
  properties n !! confidence = Some [d] ->
  bind (get_node i) (fun _ =>
    bind (add0 i count (F_of_Z 1)) (fun _ => add0 i confidence score)) t
  = (<[N.to_nat i := set_properties n
        (<[confidence := [fadd d score]]>
           (<[count := [fadd c (F_of_Z 1)]]> (properties n)))]> t, Ok tt).
Proof.
  intros Hne Hn Hc Hd.
  set (n1 := set_properties n (<[count := [fadd c (F_of_Z 1)]]> (properties n))).
  unfold bind at 1. rewrite (get_node_ok _ _ _ Hn).
  unfold bind. rewrite (add0_present _ _ _ _ _ _ (F_of_Z 1) Hn Hc). fold n1.
  assert (<[N.to_nat i := n1]> t !! N.to_nat i = Some n1) as Hn1.
  { apply list_lookup_insert_eq. by eapply lookup_lt_Some. }
  assert (properties n1 !! confidence = Some [d]) as Hd1.
  { unfold n1. cbn. by rewrite lookup_insert_ne. }
  rewrite (add0_present _ _ _ _ _ _ score Hn1 Hd1).
  by rewrite list_insert_insert_eq.
Qed.

Lemma count_after_snoc l x : count_after (l ++ [x]) = fadd (count_after l) (F_of_Z 1).
Proof. unfold count_after. by rewrite foldl_app. Qed.

Lemma confidence_after_snoc l x :
  confidence_after (l ++ [x]) = fadd (confidence_after l) x.
Proof. unfold confidence_after. by rewrite foldl_app. Qed.

(** One entry of a path. *)
Lemma tallied_visit s prior count confidence score h t (d : DecoratedNode F) :
  prior <> count -> prior <> confidence -> count <> confidence ->
  tallied s prior count confidence h t ->
  (N.to_nat (dn_id d) < length s)%nat ->
  exists t',
    bind (get_node (dn_id d)) (fun _ =>
      bind (add0 (dn_id d) count (F_of_Z 1)) (fun _ =>
        add0 (dn_id d) confidence score)) t = (t', Ok tt) /\
    tallied s prior count confidence
      (fun i => h i ++ ((fun _ => score) <$> filter (fun d' => dn_id d' = i) [d])) t'.
Proof.
  intros Hpc Hpd Hcd [Hlen Hinv] Hd.
  destruct (Hinv _ Hd) as (Hprior & n & Hn & Hc & Hf).
  eexists. split; [by apply visit_node_run|].
  split; [by rewrite length_insert|]. intros i Hi.
  destruct (decide (dn_id d = i)) as [<-|Hne].
  - split.
    + rewrite counter_insert_eq by lia. cbn.
      rewrite !lookup_insert_ne by done. rewrite <-Hprior. unfold counter. by rewrite Hn.
    + eexists. split; [apply list_lookup_insert_eq; lia|].
      rewrite filter_cons_True, filter_nil by done. cbn [fmap list_fmap].
      rewrite count_after_snoc, confidence_after_snoc. cbn. split.
      * rewrite lookup_insert_ne by done. apply lookup_insert_eq.
      * apply lookup_insert_eq.
  - destruct (Hinv _ Hi) as (Hprior' & n' & Hn' & Hc' & Hf').
    split.
    + by rewrite counter_insert_ne.
    + exists n'. rewrite filter_cons_False, filter_nil by done. cbn [fmap list_fmap].
      rewrite app_nil_r. split; [|done].
      rewrite list_lookup_insert_ne; [done|]. by intros ?%(inj N.to_nat).
Qed.

(** The loop over the entries of a path (lines 32-36). *)
Lemma tallied_entries s prior count confidence score (ds : list (DecoratedNode F)) :
  prior <> count -> prior <> confidence -> count <> confidence ->
  forall h t,
  tallied s prior count confidence h t ->
  (forall d, d ∈ ds -> (N.to_nat (dn_id d) < length s)%nat) ->
  exists t',
    for_each ds (fun d =>
      bind (get_node (dn_id d)) (fun _ =>
        bind (add0 (dn_id d) count (F_of_Z 1)) (fun _ =>
          add0 (dn_id d) confidence score))) t = (t', Ok tt) /\
    tallied s prior count confidence
      (fun i => h i ++ ((fun _ => score) <$> filter (fun d => dn_id d = i) ds)) t'.
Proof.
  intros Hpc Hpd Hcd. induction ds as [|d ds IH]; intros h t Hinv Hds.
  - exists t. split; [done|]. eapply tallied_ext; [|done].
    intros i. by rewrite filter_nil, app_nil_r.
  - destruct (tallied_visit _ _ _ _ score _ _ d Hpc Hpd Hcd Hinv) as (t1 & Hrun1 & Hinv1).
    { apply Hds. by left. }
    destruct (IH _ _ Hinv1) as (t2 & Hrun2 & Hinv2).
    { intros d' Hd'. apply Hds. by right. }
    exists t2. split.
    + cbn [for_each]. unfold bind at 1. by rewrite Hrun1.
    + eapply tallied_ext; [|done]. intros i. cbn beta.
      rewrite <-app_assoc, <-fmap_app. do 2 f_equal.
      by rewrite <-filter_app.
Qed.

(** The body of the loop over the paths (lines 26-37). *)
Lemma tallied_path s prior count confidence path h t :
  prior <> count -> prior <> confidence -> count <> confidence ->
  tallied s prior count confidence h t ->
  path_valid s prior path ->
  exists t',
    score_path prior count confidence path t = (t', Ok tt) /\
    tallied s prior count confidence (fun i => h i ++ path_hits s prior i path) t'.
Proof.
  intros Hpc Hpd Hcd Hinv Hvalid. unfold path_valid, path_hits in *.
  unfold score_path. destruct (0 <? path_length path)%Z eqn:Hlen.
  - apply Z.ltb_lt in Hlen. destruct (Hvalid Hlen) as [[score Hscore] Hids].
    rewrite Hscore. unfold path_score in Hscore.
    destruct (head path) as [first|] eqn:Hfirst; [|done].
    destruct (last path) as [back|] eqn:Hback; [|done].
    destruct (counter s (dn_id first) prior) as [p0|] eqn:Hp0; [|done].
    destruct (counter s (dn_id back) prior) as [pn|] eqn:Hpn; [|done].
    injection Hscore as <-.
    destruct Hinv as [Hlen' Hinv'].
    assert (counter t (dn_id first) prior = Some p0) as Hp0'.
    { rewrite <-Hp0. apply Hinv', Hids. by apply head_Some_elem_of. }
    assert (counter t (dn_id back) prior = Some pn) as Hpn'.
    { rewrite <-Hpn. apply Hinv', Hids. by apply last_Some_elem_of. }
    unfold bind at 1. rewrite (read0_counter _ _ _ _ Hp0').
    unfold bind at 1. rewrite (read0_counter _ _ _ _ Hpn').
    by apply tallied_entries.
  - exists t. split; [done|]. eapply tallied_ext; [|done].
    intros i. by rewrite app_nil_r.
Qed.

(** The loop over the paths (lines 24-38). *)
Lemma tallied_paths s prior count confidence (r2r : list (list (DecoratedNode F))) :
  prior <> count -> prior <> confidence -> count <> confidence ->
  forall h t,
  tallied s prior count confidence h t ->
  (forall path, path ∈ r2r -> path_valid s prior path) ->
  exists t',
    for_each r2r (score_path prior count confidence) t = (t', Ok tt) /\
    tallied s prior count confidence (fun i => h i ++ hits s prior i r2r) t'.
Proof.
  intros Hpc Hpd Hcd. induction r2r as [|path r2r IH]; intros h t Hinv Hvalid.
  - exists t. split; [done|]. eapply tallied_ext; [|done].
    intros i. unfold hits. cbn. by rewrite app_nil_r.
  - destruct (tallied_path s prior count confidence path h t) as (t1 & Hrun1 & Hinv1);
      [done|done|done|done| |].
    { apply Hvalid. by left. }
    destruct (IH _ _ Hinv1) as (t2 & Hrun2 & Hinv2).
    { intros p Hp. apply Hvalid. by right. }
    exists t2. split.
    + cbn [for_each]. unfold bind at 1. by rewrite Hrun1.
    + eapply tallied_ext; [|done]. intros i. cbn beta. unfold hits.
      by rewrite <-app_assoc.
Qed.

(** The pre-pass (lines 19-22) establishes the invariant. *)
Lemma tallied_reset s prior count confidence :
  prior <> count -> prior <> confidence ->
  tallied s prior count confidence (fun _ => []) (reset_node count confidence <$> s).
Proof.
  intros Hpc Hpd. split; [apply length_fmap|]. intros i Hi.
  destruct (lookup_lt_is_Some_2 s _ Hi) as [n Hn].
  destruct (reset_node_counters count confidence n) as [Hc Hd].
  split.
  - unfold counter. rewrite list_lookup_fmap, Hn. cbn.
    by rewrite !lookup_insert_ne.
  - exists (reset_node count confidence n). by rewrite list_lookup_fmap, Hn.
Qed.

(** X1.  The scorer on any set of paths.  When the three names are pairwise
    distinct and every path with at least one edge names nodes of the graph
    only and has a first prior element at both ends, the scorer returns
    normally, and on every node [count[0]] is [0 + 1 + ... + 1] with one
    [+ 1] per entry of a scored path that names the node, and
    [confidence[0]] is [0 + score_1 + ... + score_k] with the scores of
    these same paths, once per such entry, in the order of the paths. *)
Theorem scorer_tallies_paths r2r prior count confidence s :
  prior <> count -> prior <> confidence -> count <> confidence ->
  (forall path, path ∈ r2r -> path_valid s prior path) ->
  exists t,
    calculate_node_importance r2r prior count confidence s = (t, Ok tt) /\
    forall i, (N.to_nat i < length s)%nat ->
      counter t i count = Some (count_after (hits s prior i r2r)) /\
      counter t i confidence = Some (confidence_after (hits s prior i r2r)).
Proof.
  intros Hpc Hpd Hcd Hvalid. rewrite calculate_unfold.
  destruct (tallied_paths s prior count confidence r2r Hpc Hpd Hcd _ _
              (tallied_reset s prior count confidence Hpc Hpd) Hvalid)
    as (t & Hrun & _ & Hinv).
  exists t. split; [done|]. intros i Hi.
  destruct (Hinv i Hi) as (_ & n & Hn & Hc & Hd).
  unfold counter. by rewrite Hn, Hc, Hd.
Qed.

(** The paths the loop scores. *)
Definition has_edge path : bool := (0 <? path_length path)%Z.

Lemma for_each_skip (r2r : list (list (DecoratedNode F))) prior count confidence s :
  for_each (filter (fun path => has_edge path = true) r2r)
    (score_path prior count confidence) s
  = for_each r2r (score_path prior count confidence) s.
Proof.
  revert s. induction r2r as [|path r2r IH]; intros s; [done|].
  destruct (has_edge path) eqn:Hlen.
  - rewrite filter_cons_True by done. cbn [for_each]. unfold bind.
    destruct (score_path prior count confidence path s) as [s' [[]|e]]; [|done].
    apply IH.
  - rewrite filter_cons_False by (by rewrite Hlen). cbn [for_each]. unfold bind.
    rewrite score_path_skipped; [apply IH|].
    unfold has_edge in Hlen. apply Z.ltb_ge in Hlen. lia.
Qed.

(** X2.  Paths without an edge (empty, or of a single entry) are not looked
    at: the scorer leaves the same node vector and has the same outcome,
    exceptions included, as on the path set with these paths removed.  In
    particular such a path may name ids that are no nodes. *)
Theorem scorer_ignores_paths_without_edge r2r prior count confidence s :
  calculate_node_importance r2r prior count confidence s =
  calculate_node_importance (filter (fun path => has_edge path = true) r2r)
    prior count confidence s.
Proof. rewrite !calculate_unfold. symmetry. apply for_each_skip. Qed.

End ScorerTally.

(** * Further properties of the matrix projection *)

Section MatrixShape.
Context {F W : Type} `{Floating F} `{TypeSizes}.
Implicit Types (n : Node F) (weights m : list F).

(** What line 49 reads of a node: three elements of the position and one of
    the weight. *)
Definition projectable (weight_key pos_key : string) n : Prop :=
  exists x y z rest w wrest,
    properties n !! pos_key = Some (x :: y :: z :: rest) /\
    properties n !! weight_key = Some (w :: wrest).

(** The first element of the weight property of some node of [ns]. *)
Definition weight_of (weight_key : string) (ns : list (Node F)) (v : F) : Prop :=
  exists n wrest, n ∈ ns /\ properties n !! weight_key = Some (v :: wrest).

Lemma vector_at_put_ok weights idx w m :
  vector_at_put weights idx w = Ok m ->
  length m = length weights /\ forall v, v ∈ m -> v = w \/ v ∈ weights.
Proof.
  unfold vector_at_put. destruct (_ || _); [done|].
  destruct (_ <? _)%nat; [|done]. intros [= <-]. split; [apply length_insert|].
  intros v [i Hi]%list_elem_of_lookup.
  apply list_lookup_insert_Some in Hi as [(_ & -> & _)|[_ Hi]]; [by left|].
  right. by eapply list_elem_of_lookup_2.
Qed.

Lemma project_node_ok n ns columns slices weight_key pos_key weights m :
  project_nodes (n :: ns) columns slices weight_key pos_key weights = Ok m ->
  exists x y z rest w wrest weights',
    properties n !! pos_key = Some (x :: y :: z :: rest) /\
    properties n !! weight_key = Some (w :: wrest) /\
    vector_at_put weights
      (F_to_Z (fadd (fadd z (fmul y (F_of_id slices)))
                    (fmul (fmul x (F_of_id columns)) (F_of_id slices)))) w = Ok weights' /\
    project_nodes ns columns slices weight_key pos_key weights' = Ok m.
Proof.
  cbn [project_nodes]. unfold map_at.
  destruct (properties n !! pos_key) as [pos|]; [|done].
  destruct (properties n !! weight_key) as [[|w wrest]|]; [done| |done].
  cbn [mbind result_bind]. unfold Property_at at 1. cbn [lookup list_lookup].
  unfold flat_index, Property_at.
  destruct pos as [|x [|y [|z rest]]]; [done..|].
  cbn [lookup list_lookup mbind result_bind mret result_ret].
  destruct (vector_at_put _ _ _) as [weights'|e] eqn:Hput; [|done].
  cbn [mbind result_bind]. intros Hrun.
  by exists x, y, z, rest, w, wrest, weights'.
Qed.

Lemma project_nodes_ok ns columns slices weight_key pos_key weights m :
  project_nodes ns columns slices weight_key pos_key weights = Ok m ->
  length m = length weights /\
  Forall (projectable weight_key pos_key) ns /\
  forall v, v ∈ m -> v ∈ weights \/ weight_of weight_key ns v.
Proof.
  revert weights. induction ns as [|n ns IH]; intros weights Hrun.
  - injection Hrun as <-. split_and!; [done|constructor|by left].
  - apply project_node_ok in Hrun
      as (x & y & z & rest & w & wrest & weights' & Hpos & Hw & Hput & Hrun).
    apply vector_at_put_ok in Hput as [Hlen Hin].
    apply IH in Hrun as (Hlen' & Hall & Hin').
    split_and!.
    + congruence.
    + constructor; [|done]. by exists x, y, z, rest, w, wrest.
    + intros v Hv. destruct (Hin' v Hv) as [Hv'|(n' & wrest' & Hn' & Hw')].
      * destruct (Hin v Hv') as [->|Hv'']; [|by left].
        right. exists n, wrest. split; [by left|done].
      * right. exists n', wrest'. split; [by right|done].
Qed.

(** X3.  Whatever the graph and the arguments, a vector that [as_matrix]
    returns has [rows * columns * slices] elements, the product being taken
    in [id_type] and so modulo its range, and each element is the initial 0
    or the first weight element of some node: no other value is written. *)
Theorem as_matrix_result_shape (g : Graph F W) rows columns slices weight_key pos_key m :
  as_matrix g rows columns slices weight_key pos_key = Ok m ->
  length m = N.to_nat (id_wrap (id_wrap (rows * columns) * slices)) /\
  forall v, v ∈ m -> v = F_of_Z 0 \/ weight_of weight_key (nodes_ g) v.
Proof.
  unfold as_matrix. intros (Hlen & _ & Hin)%project_nodes_ok.
  rewrite length_replicate in Hlen. split; [done|].
  intros v Hv. destruct (Hin v Hv) as [Hrep|Hw]; [|by right].
  left. by apply elem_of_replicate in Hrep as [-> _].
Qed.

Lemma project_nodes_throw ns columns slices weight_key pos_key weights e :
  project_nodes ns columns slices weight_key pos_key weights = Throw e ->
  e = out_of_range \/ e = undefined_behaviour.
Proof.
  revert weights. induction ns as [|n ns IH]; intros weights; [done|].
  cbn [project_nodes]. unfold map_at.
  destruct (properties n !! pos_key) as [pos|]; [|intros [= <-]; by left].
  destruct (properties n !! weight_key) as [wp|]; [|intros [= <-]; by left].
  cbn [mbind result_bind]. unfold Property_at at 1.
  destruct (wp !! 0%nat) as [w|]; [|intros [= <-]; by left].
  cbn [mbind result_bind]. unfold flat_index, Property_at.
  destruct (pos !! 2%nat) as [z|]; [|intros [= <-]; by left].
  destruct (pos !! 1%nat) as [y|]; [|intros [= <-]; by left].
  destruct (pos !! 0%nat) as [x|]; [|intros [= <-]; by left].
  cbn [mbind result_bind mret result_ret]. unfold vector_at_put.
  destruct (_ || _); [intros [= <-]; by right|].
  destruct (_ <? _)%nat; [|intros [= <-]; by left].
  cbn [mbind result_bind]. apply IH.
Qed.

(** X4.  [as_matrix] returns a vector only if every node has the position
    property with at least three elements and the weight property with at
    least one: a single node without them makes the call fail, also when
    the other nodes could be projected.  The failure is the out-of-range
    error of [std::map::at], of the element access or of
    [std::vector::at], unless an earlier node has an index whose conversion
    to [size_type] is undefined. *)
Theorem as_matrix_requires_properties (g : Graph F W) rows columns slices
    weight_key pos_key n :
  n ∈ nodes_ g -> ~ projectable weight_key pos_key n ->
  exists e, as_matrix g rows columns slices weight_key pos_key = Throw e /\
    (e = out_of_range \/ e = undefined_behaviour).
Proof.
  intros Hn Hbad.
  destruct (as_matrix g rows columns slices weight_key pos_key) as [m|e] eqn:Hrun.
  - unfold as_matrix in Hrun. apply project_nodes_ok in Hrun as (_ & Hall & _).
    rewrite Forall_forall in Hall. destruct Hbad. by apply Hall.
  - exists e. split; [done|]. by eapply project_nodes_throw.
Qed.
End MatrixShape.

Section MatrixIndex.
Context {F W : Type} `{Floating F} `{TypeSizes}.
Context (bound : Z) `{!ExactIntegers F bound}.

(** X14.  The only check on a position is that of [std::vector::at] on the
    flat index: a node whose position [(x, y, z)] gives an index
    [z + y * slices + x * columns * slices] below the size of the vector
    (and in the range where the arithmetic is exact) is written to that
    cell, whether or not [x < rows], [y < columns] and [z < slices]; a
    position outside the grid is so taken for the position inside it that
    has the same index. *)
Theorem as_matrix_checks_flat_index_only (n : Node F) (es : list (list (Edge W)))
    rows columns slices weight_key pos_key (x y z : N) rest w wrest :
  let index := z + y * slices + x * columns * slices in
  let size := id_wrap (id_wrap (rows * columns) * slices) in
  properties n !! pos_key = Some (F_of_id x :: F_of_id y :: F_of_id z :: rest) ->
  properties n !! weight_key = Some (w :: wrest) ->
  (Z.of_N index <= bound)%Z -> index < size_t_modulus -> index < size ->
  as_matrix (mkGraph [n] es) rows columns slices weight_key pos_key =
    Ok (<[N.to_nat index := w]> (replicate (N.to_nat size) (F_of_Z 0))).
Proof.
  intros index size Hpos Hw Hb Hsz Hlt. unfold as_matrix. fold size.
  assert (slices <> 0) as Hslices.
  { intros ->. unfold size, id_wrap in Hlt. rewrite N.mul_0_r in Hlt.
    rewrite N.Div0.mod_0_l in Hlt. lia. }
  assert (x * columns <= x * columns * slices) as Hxc.
  { rewrite <-(N.mul_1_r (x * columns)) at 1. apply N.mul_le_mono_l. lia. }
  cbn [nodes_ project_nodes]. unfold map_at. rewrite Hpos, Hw.
  cbn [mbind result_bind]. unfold Property_at at 1. cbn [lookup list_lookup].
  unfold flat_index, Property_at.
  cbn [lookup list_lookup mbind result_bind mret result_ret]. unfold F_of_id.
  subst index.
  rewrite (fmul_exact (Z.of_N y) (Z.of_N slices)) by nia.
  rewrite (fmul_exact (Z.of_N x) (Z.of_N columns)) by nia.
  rewrite (fmul_exact (Z.of_N x * Z.of_N columns) (Z.of_N slices)) by nia.
  rewrite (fadd_exact (Z.of_N z)) by nia.
  rewrite fadd_exact by nia.
  rewrite F_to_Z_exact by nia.
  replace (Z.of_N z + Z.of_N y * Z.of_N slices +
           Z.of_N x * Z.of_N columns * Z.of_N slices)%Z
    with (Z.of_N (z + y * slices + x * columns * slices)) by lia.
  unfold vector_at_put.
  replace (_ || _) with false.
  2:{ symmetry. apply orb_false_intro; [apply Z.ltb_ge|apply Z.leb_gt]; lia. }
  rewrite <-Z_N_nat, N2Z.id, length_replicate.
  destruct (Nat.ltb_spec (N.to_nat (z + y * slices + x * columns * slices))
              (N.to_nat size)); [done|lia].
Qed.
End MatrixIndex.

(** * Further properties of [load_binary] *)

Section LoadShape.
Context `{TypeSizes} {F W : Type}.
Context `{!Wire F sizeof_property_type} `{!Wire W sizeof_weight_type}.
Implicit Types (header : Header.t) (stream file : istream).

(** The names and dims that the slicing of lines 197-203 gives to a node:
    those of the schema, a name that occurs twice keeping its last dim. *)
Definition schema_dims (schema : list (string * N)) (dims : gmap string nat)
    : gmap string nat :=
  foldl (fun m kd => <[kd.1 := N.to_nat kd.2]> m) dims schema.

Lemma length_decode_elements count bytes :
  length (decode_elements (F:=F) count bytes) = count.
Proof.
  revert bytes. induction count as [|count IH]; intros bytes; [done|].
  cbn [decode_elements length]. by rewrite IH.
Qed.

Lemma slice_properties_dims schema start total property_values
    (properties m : gmap string (Property F)) :
  slice_properties schema start total property_values properties = Ok m ->
  dim <$> m = schema_dims schema (dim <$> properties).
Proof.
  revert start properties. induction schema as [|[name elements] schema IH];
    intros start properties; cbn [slice_properties schema_dims foldl fst snd].
  - by intros [= <-].
  - destruct (start + elements <=? total); [|done].
    intros Hrun%IH. rewrite Hrun, fmap_insert. unfold dim at 2.
    by rewrite length_decode_elements.
Qed.

Lemma read_nodes_shape count i stream property_values header (nodes : list (Node F))
    stream' nodes' :
  read_nodes count i stream property_values header nodes = Ok (stream', nodes') ->
  Forall (fun n => dim <$> properties n = schema_dims (Header.properties header) ∅) nodes ->
  length nodes' = (length nodes + count)%nat /\
  Forall (fun n => dim <$> properties n = schema_dims (Header.properties header) ∅) nodes'.
Proof.
  revert i stream property_values nodes.
  induction count as [|count IH]; intros i stream property_values nodes;
    cbn [read_nodes].
  - intros [= <- <-] Hall. split; [lia|done].
  - destruct (read stream id_size _) as [stream1 ?].
    destruct (read stream1 _ property_values) as [stream2 property_values'].
    destruct (slice_properties _ _ _ _ _) as [properties|e'] eqn:Hslice;
      cbn [mbind result_bind]; [|done].
    intros Hrun Hall. apply IH in Hrun as [Hlen Hall'].
    + split; [|done]. rewrite Hlen, length_app. cbn. lia.
    + apply Forall_app. split; [done|]. constructor; [|done]. cbn.
      apply slice_properties_dims in Hslice. by rewrite fmap_empty in Hslice.
Qed.

(** The number of edges in the lists [edges]. *)
Definition edge_total (edges : list (list (Edge W))) : nat := sum_list (length <$> edges).

Lemma edge_total_insert (edges : list (list (Edge W))) k es e :
  edges !! k = Some es ->
  edge_total (<[k := es ++ [e]]> edges) = S (edge_total edges).
Proof.
  unfold edge_total. revert k. induction edges as [|es0 edges IH]; intros k; [done|].
  destruct k as [|k]; cbn.
  - intros [= ->]. rewrite length_app. cbn. lia.
  - intros Hk. rewrite <-Nat.add_succ_r. f_equal. exact (IH _ Hk).
Qed.

Lemma read_edges_shape count stream (edges edges' : list (list (Edge W))) :
  read_edges count stream edges = Ok edges' ->
  length edges' = length edges /\
  edge_total edges' = (edge_total edges + count)%nat.
Proof.
  revert stream edges. induction count as [|count IH]; intros stream edges;
    cbn [read_edges].
  - intros [= <-]. split; [done|lia].
  - destruct (read stream edge_bytes []) as [stream' e_info].
    destruct (good stream'); [|done].
    destruct (edges !! _) as [es|] eqn:Hes; [|done].
    intros [Hlen Htotal]%IH. rewrite length_insert in Hlen.
    rewrite (edge_total_insert _ _ _ _ Hes) in Htotal. split; [done|lia].
Qed.

Lemma edge_total_replicate n : edge_total (replicate n []) = 0%nat.
Proof. unfold edge_total. induction n as [|n IH]; [done|]. cbn. by rewrite IH. Qed.

Lemma parse_data_shape stream header nodes (edges : list (list (Edge W))) :
  parse_data stream header = Ok (nodes, edges) ->
  length nodes = N.to_nat (Header.node_count header) /\
  length edges = N.to_nat (Header.node_count header) /\
  edge_total edges = N.to_nat (Header.edge_count header) /\
  Forall (fun n => dim <$> properties n = schema_dims (Header.properties header) ∅) nodes.
Proof.
  unfold parse_data.
  destruct (read_nodes _ _ _ _ _ _) as [[stream1 nodes1]|e] eqn:Hnodes;
    cbn [mbind result_bind]; [|done].
  destruct (read_edges _ _ _) as [edges1|e] eqn:Hedges;
    cbn [mbind result_bind mret result_ret]; [|done].
  intros [= <- <-].
  apply read_nodes_shape in Hnodes as [Hlen Hall]; [|constructor].
  apply read_edges_shape in Hedges as [Hlen' Htotal].
  rewrite length_replicate in Hlen'. rewrite edge_total_replicate in Htotal.
  by split_and!.
Qed.

Lemma load_binary_data uninitialised bytes header file (g : Graph F W) :
  parse_header uninitialised (mk_istream bytes false false) = Some (Ok (header, file)) ->
  load_binary uninitialised (Some bytes) = Some (Ok g) ->
  parse_data file header = Ok (nodes_ g, edges_ g).
Proof.
  intros Hparse. unfold load_binary. rewrite Hparse.
  destruct (negb _); [done|]. destruct (negb _); [done|]. destruct (_ <? _); [done|].
  destruct (parse_data file header) as [[nodes edges]|e];
    cbn [mbind result_bind mret result_ret]; [|done].
  by intros [= <-].
Qed.

(** X5.  A graph that [load_binary] returns has what the header declares:
    [node_count] nodes, one edge list per node, [edge_count] edges in all,
    and on every node the property names of the schema line, each with the
    dim given there (the last one, for a name the line has twice). *)
Theorem load_binary_declared_counts uninitialised bytes header file (g : Graph F W) :
  parse_header uninitialised (mk_istream bytes false false) = Some (Ok (header, file)) ->
  load_binary uninitialised (Some bytes) = Some (Ok g) ->
  no_of_nodes g = Header.node_count header /\
  length (edges_ g) = length (nodes_ g) /\
  N.of_nat (edge_total (edges_ g)) = Header.edge_count header /\
  forall n, n ∈ nodes_ g ->
    dim <$> properties n = schema_dims (Header.properties header) ∅.
Proof.
  intros Hparse Hload.
  pose proof (load_binary_data _ _ _ _ _ Hparse Hload) as Hdata.
  apply parse_data_shape in Hdata as (Hn & He & Ht & Hall).
  unfold no_of_nodes. split_and!; [lia|lia|lia|].
  by apply Forall_forall.
Qed.

Lemma schema_list_dims (m : gmap string (Property F)) :
  schema_list (map_to_list m) = map_to_list ((fun p => N.of_nat (dim p)) <$> m).
Proof.
  rewrite map_to_list_fmap. unfold schema_list. apply list_fmap_ext.
  by intros _ [name p] _.
Qed.

(** X6.  Every graph that [load_binary] returns satisfies I2, all its
    nodes having the same property names with the same dims in the same
    order, and has as many edge lists as nodes.  (The targets of the edges
    are taken from the file as they are.) *)
Theorem load_binary_uniform_schema uninitialised contents (g : Graph F W) :
  load_binary uninitialised contents = Some (Ok g) ->
  I2 g /\ length (edges_ g) = length (nodes_ g).
Proof.
  intros Hload. destruct contents as [bytes|]; [|done].
  destruct (parse_header uninitialised (mk_istream bytes false false))
    as [[[header file]|e]|] eqn:Hparse.
  2,3: unfold load_binary in Hload; by rewrite Hparse in Hload.
  pose proof (load_binary_data _ _ _ _ _ Hparse Hload) as Hdata.
  apply parse_data_shape in Hdata as (Hn & He & _ & Hall).
  split; [|lia]. intros n n' Hin Hin'. rewrite Forall_forall in Hall.
  rewrite !schema_list_dims.
  assert (forall m : gmap string (Property F),
    (fun p => N.of_nat (dim p)) <$> m = N.of_nat <$> (dim <$> m)) as Hcomp.
  { intros m. by rewrite <-map_fmap_compose. }
  by rewrite !Hcomp, (Hall n Hin), (Hall n' Hin').
Qed.

(** *** A data section that is too short *)



End LoadShape.

(** * Further properties of [parse_header] *)

Section HeaderLines.
Context `{TypeSizes}.
Implicit Types (header : Header.t) (file : istream) (line : list ascii).

(** More fuel than the loop needs changes nothing. *)
Lemma parse_header_loop_mono fuel file line header r :
  parse_header_loop fuel file line header = Some r ->
  forall fuel', (fuel <= fuel')%nat -> parse_header_loop fuel' file line header = Some r.
Proof.
  revert file line header. induction fuel as [|fuel IH]; intros file line header Hrun
    fuel' Hle.
  - cbn [parse_header_loop] in Hrun.
    destruct (good file && negb (bool_decide (line = chars "# Data"))) eqn:Hcond; [done|].
    destruct fuel'; cbn [parse_header_loop]; by rewrite Hcond.
  - destruct fuel' as [|fuel']; [lia|]. cbn [parse_header_loop] in Hrun |- *.
    destruct (good file && negb (bool_decide (line = chars "# Data"))); [|done].
    destruct (getline file line) as [file1 line1].
    destruct (bool_decide (line1 = chars "# Header")).
    { destruct (parse_entries 5 file1 line1 ∅) as [[[file2 line2] entries]|e]; [|done].
      apply IH; [done|lia]. }
    destruct (bool_decide (line1 = chars "# Properties")); [|apply IH; [done|lia]].
    destruct (getline file1 line1) as [file2 line2].
    destruct (parse_properties _ _ _) as [[total properties]|e]; [|done].
    apply IH; [done|lia].
Qed.

Lemma parse_header_loop_fuel fuel fuel' file line header :
  within fuel file -> (fuel <= fuel')%nat ->
  parse_header_loop fuel' file line header = parse_header_loop fuel file line header.
Proof.
  intros Hw Hle.
  destruct (parse_header_loop_terminates fuel file line header Hw) as [r Hr].
  rewrite Hr. by eapply parse_header_loop_mono.
Qed.

(** On a good stream the loop does not look at the line it starts from,
    except to compare it with [# Data]. *)
Lemma parse_header_loop_line fuel file line line' header :
  good file = true -> line <> chars "# Data" -> line' <> chars "# Data" ->
  parse_header_loop fuel file line header = parse_header_loop fuel file line' header.
Proof.
  intros Hgood Hline Hline'. destruct fuel as [|fuel]; cbn [parse_header_loop];
    rewrite Hgood, !bool_decide_false by done; cbn [negb andb]; [done|].
  unfold getline. by rewrite Hgood.
Qed.

Lemma parse_header_skips_line uninitialised l bytes :
  newline ∉ l ->
  l <> chars "# Header" -> l <> chars "# Properties" -> l <> chars "# Data" ->
  parse_header uninitialised (mk_istream (l ++ newline :: bytes) false false) =
  parse_header uninitialised (mk_istream bytes false false).
Proof.
  intros Hnl Hh Hp Hd. unfold parse_header. cbn [remaining].
  rewrite parse_header_loop_S by done.
  rewrite getline_line by done.
  rewrite !bool_decide_false by done.
  rewrite (parse_header_loop_line _ _ l []) by done.
  apply parse_header_loop_fuel.
  - intros _. cbn. lia.
  - rewrite length_app. cbn. lia.
Qed.

(** A first entry line [key=value] whose value [std::stoul] rejects. *)
Lemma parse_header_bad_number uninitialised key value rest e :
  "="%char ∉ key -> "="%char ∉ value -> newline ∉ key -> newline ∉ value ->
  stoul (trim value whitespace) = Throw e ->
  parse_header uninitialised
    (mk_istream (chars "# Header" ++ newline :: (key ++ "="%char :: value) ++ newline :: rest)
       false false) = Some (Throw e).
Proof.
  intros Hk Hv Hkn Hvn Hstoul. unfold parse_header.
  rewrite parse_header_loop_S by done.
  rewrite getline_line by not_in_literal.
  rewrite bool_decide_true by done.
  cbn [parse_entries]. rewrite getline_line.
  2:{ rewrite not_elem_of_app, not_elem_of_cons. by split_and!. }
  unfold parse_entry. rewrite split_app, split_single by done.
  cbn [vector_index lookup list_lookup mbind result_bind].
  by rewrite Hstoul.
Qed.
End HeaderLines.

Section LoadLines.
Context `{TypeSizes} {F W : Type}.
Context `{!Wire F sizeof_property_type} `{!Wire W sizeof_weight_type}.

(** X8.  A line before the header that is none of the three headings is
    skipped: the file with the line loads as the file without it, with the
    same graph or the same failure.  (Comment lines and blank lines can so
    precede [# Header].) *)
Theorem load_binary_skips_leading_line uninitialised l bytes :
  newline ∉ l ->
  l <> chars "# Header" -> l <> chars "# Properties" -> l <> chars "# Data" ->
  load_binary (F:=F) (W:=W) uninitialised (Some (l ++ newline :: bytes)) =
  load_binary uninitialised (Some bytes).
Proof.
  intros Hnl Hh Hp Hd. unfold load_binary.
  by rewrite parse_header_skips_line.
Qed.

(** X9.  A malformed numeric field fails the load with the exception of
    [std::stoul]: when the first entry after [# Header] is [key=value] and
    [std::stoul] rejects the trimmed value (no digit: invalid argument; a
    number above [ULONG_MAX]: out of range), [load_binary] throws that
    exception and returns no graph, whatever follows in the file. *)
Theorem load_binary_rejects_bad_number uninitialised key value rest e :
  "="%char ∉ key -> "="%char ∉ value -> newline ∉ key -> newline ∉ value ->
  stoul (trim value whitespace) = Throw e ->
  load_binary (F:=F) (W:=W) uninitialised
    (Some (chars "# Header" ++ newline :: (key ++ "="%char :: value) ++ newline :: rest))
  = Some (Throw e).
Proof.
  intros Hk Hv Hkn Hvn Hstoul. unfold load_binary.
  by rewrite (parse_header_bad_number uninitialised key value rest e).
Qed.
End LoadLines.

(** * Further properties of [save_binary] and of saving then loading *)

Section SaveLayout.
Context `{TypeSizes} {F W : Type}.
Context `{!Wire F sizeof_property_type} `{!Wire W sizeof_weight_type}.
Implicit Types (g : Graph F W).


End SaveLayout.

(** *** A header without a schema line *)

Section PlainHeader.
Context `{TypeSizes}.


End PlainHeader.

Section SaveThenLoad.
Context `{TypeSizes} {F W : Type}.
Context `{!Wire F sizeof_property_type} `{!Wire W sizeof_weight_type}.
Implicit Types (g : Graph F W).






End SaveThenLoad.

(** * Further properties of the reader: edge records and header entries *)

Section EdgeRecords.
Context `{TypeSizes} {W : Type} `{!Wire W sizeof_weight_type}.
Implicit Types (records : list (N * Edge W)) (edges : list (list (Edge W))).

(** The bytes of edge records given by source and edge, in any order of
    the sources. *)
Definition record_bytes records : list ascii :=
  concat ((fun r => write_edge r.1 r.2) <$> records).

(** The edges of source [k] among the records, in the order of the file. *)
Definition edges_from (k : nat) records : list (Edge W) :=
  snd <$> filter (fun r => N.to_nat r.1 = k) records.

(** A record whose source is one of [n] nodes and whose fields are values
    of their types. *)
Definition record_fits (n : nat) (r : N * Edge W) : Prop :=
  (N.to_nat r.1 < n)%nat /\ r.1 < id_modulus /\ edge_fits r.2.

Lemma read_edges_records records :
  forall rest edges,
  Forall (record_fits (length edges)) records ->
  exists edges',
    read_edges (length records)
      (mk_istream (record_bytes records ++ rest) false false) edges = Ok edges' /\
    length edges' = length edges /\
    forall k es0, edges !! k = Some es0 ->
      edges' !! k = Some (es0 ++ edges_from k records).
Proof.
  induction records as [|[source e] records IH]; intros rest edges Hfit.
  - exists edges. split_and!; [done|done|]. intros k es0 Hk.
    unfold edges_from. by rewrite filter_nil, app_nil_r.
  - apply Forall_cons in Hfit as [(Hsource & Hid & He) Hfit]. cbn [fst snd] in *.
    destruct (lookup_lt_is_Some_2 edges _ Hsource) as [es Hes].
    unfold record_bytes. cbn [length fmap list_fmap concat fst snd].
    rewrite <-app_assoc. rewrite (read_edges_record _ _ _ _ _ es) by done.
    fold (record_bytes records).
    destruct (IH rest (<[N.to_nat source := es ++ [e]]> edges))
      as (edges' & Hrun & Hlen & Hedges).
    { by rewrite length_insert. }
    exists edges'. split_and!; [done|by rewrite Hlen, length_insert|].
    intros k es0 Hk. unfold edges_from in *.
    destruct (decide (N.to_nat source = k)) as [<-|Hne].
    + rewrite filter_cons_True by done. cbn [fmap list_fmap snd].
      rewrite (Hedges _ (es ++ [e])).
      * rewrite Hes in Hk. injection Hk as <-. by rewrite <-app_assoc.
      * apply list_lookup_insert_eq. lia.
    + rewrite filter_cons_False by done. apply Hedges.
      by rewrite list_lookup_insert_ne.
Qed.

(** X16.  The edge records need not be grouped by source as [save_binary]
    writes them: from records in any order whose sources are nodes and
    whose fields are values of their types, the loop of lines 209-213
    builds for every node the list of the edges that name it as source, in
    the order in which they come in the file, and reads nothing beyond
    the last record. *)
Theorem read_edges_groups_by_source records rest (n : nat) :
  Forall (record_fits n) records ->
  read_edges (length records)
    (mk_istream (record_bytes records ++ rest) false false) (replicate n []) =
  Ok ((fun k => edges_from k records) <$> seq 0 n).
Proof.
  intros Hfit.
  destruct (read_edges_records records rest (replicate n []))
    as (edges' & Hrun & Hlen & Hedges).
  { by rewrite length_replicate. }
  rewrite Hrun. f_equal. rewrite length_replicate in Hlen.
  apply list_eq_same_length with n; [by rewrite length_fmap, length_seq|done|].
  intros k es es' Hk Hes Hes'.
  rewrite (Hedges k []) in Hes by (by apply lookup_replicate_2).
  rewrite list_lookup_fmap, lookup_seq_lt in Hes' by done.
  cbn in Hes, Hes'. congruence.
Qed.
End EdgeRecords.

Section HeaderEntries.
Context `{TypeSizes}.
Implicit Types (kvs : list (string * N)).






End HeaderEntries.

Section LoadEntries.
Context `{TypeSizes} {F W : Type}.
Context `{!Wire F sizeof_property_type} `{!Wire W sizeof_weight_type}.

End LoadEntries.

(** * The further properties on the example inputs *)

Lemma scorer_tallies_paths_witness :
  exists t,
    calculate_node_importance tally_r2r "prior" "count" "confidence" example_nodes
      = (t, Ok tt) /\
    counter t 1 "count" = Some (EConst 3) /\
    counter t 2 "count" = Some (EConst 1).
Proof.
  destruct (scorer_tallies_paths tally_r2r "prior" "count" "confidence" example_nodes)
    as (t & Hrun & Hcount); [discriminate..| |].
  - intros path Hpath Hlen. apply list_elem_of_In in Hpath. cbn in Hpath.
    destruct Hpath as [<-|[<-|[<-|[]]]].
    + split; [by eexists|]. intros d Hd. apply list_elem_of_In in Hd. cbn in Hd.
      destruct Hd as [<-|[<-|[]]]; cbn; lia.
    + discriminate Hlen.
    + split; [by eexists|]. intros d Hd. apply list_elem_of_In in Hd. cbn in Hd.
      destruct Hd as [<-|[<-|[<-|[]]]]; cbn; lia.
  - exists t. split; [exact Hrun|]. split.
    + destruct (Hcount 1) as [-> _]; [cbn; lia|]. vm_compute. reflexivity.
    + destruct (Hcount 2) as [-> _]; [cbn; lia|]. vm_compute. reflexivity.
Defined.

Lemma as_matrix_result_shape_witness :
  exists m,
    as_matrix (H0 := lp64_sizes) grid_graph 2 2 2 "weight" "pos" = Ok m /\
    length m = 8%nat.
Proof.
  assert (exists m, as_matrix (H0 := lp64_sizes) grid_graph 2 2 2 "weight" "pos" = Ok m)
    as [m Hm] by (eexists; vm_compute; reflexivity).
  exists m. split; [exact Hm|].
  destruct (as_matrix_result_shape (H0 := lp64_sizes) grid_graph 2 2 2 "weight" "pos"
              m Hm) as [Hlen _].
  exact Hlen.
Defined.

Lemma as_matrix_requires_properties_witness :
  exists e,
    as_matrix (H0 := lp64_sizes) unweighted_graph 2 2 2 "weight" "pos" = Throw e /\
    (e = out_of_range \/ e = undefined_behaviour).
Proof.
  apply (as_matrix_requires_properties (H0 := lp64_sizes) unweighted_graph 2 2 2
           "weight" "pos"
           (mkNode 1 {[ "pos"%string := [EConst 1; EConst 1; EConst 1] ]})).
  - right. left.
  - intros (x & y & z & rest & w & wrest & _ & Hw). discriminate Hw.
Defined.

Lemma as_matrix_checks_flat_index_only_witness :
  as_matrix (W := expr) (H0 := lp64_sizes) (mkGraph [stray_node] [[]])
    2 2 2 "weight" "pos" =
  Ok (<[7%nat := EConst 5]> (replicate 8 (EConst 0))).
Proof.
  refine (as_matrix_checks_flat_index_only (W := expr) (H0 := lp64_sizes) (2 ^ 53)
            stray_node [[]] 2 2 2 "weight" "pos" 0 3 1 [] (EConst 5) [] _ _ _ _ _).
  - reflexivity.
  - reflexivity.
  - cbn. lia.
  - reflexivity.
  - reflexivity.
Defined.

Lemma mislabelled_file_loads :
  load_binary (H := lp64_sizes) (Wire0 := word_wire 8) (Wire1 := word_wire 8)
    stale_header (Some mislabelled_file) = Some (Ok relabelled_graph).
Proof. vm_compute. reflexivity. Qed.

Lemma mislabelled_file_header :
  exists file,
    parse_header (H := lp64_sizes) stale_header (mk_istream mislabelled_file false false)
    = Some (Ok (mislabelled_header, file)).
Proof. eexists. vm_compute. reflexivity. Qed.

Lemma load_binary_declared_counts_witness :
  no_of_nodes relabelled_graph = 2 /\
  N.of_nat (edge_total (edges_ relabelled_graph)) = 3.
Proof.
  destruct mislabelled_file_header as [file Hparse].
  destruct (load_binary_declared_counts (H := lp64_sizes) (Wire0 := word_wire 8)
              (Wire1 := word_wire 8) stale_header mislabelled_file mislabelled_header
              file relabelled_graph Hparse mislabelled_file_loads)
    as (Hn & _ & He & _).
  exact (conj Hn He).
Defined.

Lemma load_binary_uniform_schema_witness :
  I2 relabelled_graph /\ length (edges_ relabelled_graph) = length (nodes_ relabelled_graph).
Proof.
  exact (load_binary_uniform_schema (H := lp64_sizes) (Wire0 := word_wire 8)
           (Wire1 := word_wire 8) stale_header (Some mislabelled_file) relabelled_graph
           mislabelled_file_loads).
Defined.


Lemma load_binary_skips_leading_line_witness :
  load_binary (H := lp64_sizes) (Wire0 := word_wire 8) (Wire1 := word_wire 8)
    stale_header (Some (chars "a saved graph" ++ newline :: mislabelled_file)) =
  load_binary (H := lp64_sizes) (Wire0 := word_wire 8) (Wire1 := word_wire 8)
    stale_header (Some mislabelled_file).
Proof.
  apply (load_binary_skips_leading_line (H := lp64_sizes) (Wire0 := word_wire 8)
           (Wire1 := word_wire 8) stale_header (chars "a saved graph") mislabelled_file).
  - not_in_literal.
  - discriminate.
  - discriminate.
  - discriminate.
Defined.

Lemma load_binary_rejects_bad_number_witness :
  load_binary (H := lp64_sizes) (F := N) (W := N) (Wire0 := word_wire 8)
    (Wire1 := word_wire 8) stale_header
    (Some (chars "# Header" ++ newline ::
           (chars "node_count " ++ "="%char :: chars " xyz") ++ newline ::
           chars "edge_count = 0"))
  = Some (Throw invalid_argument).
Proof.
  apply (load_binary_rejects_bad_number (H := lp64_sizes) (Wire0 := word_wire 8)
           (Wire1 := word_wire 8) stale_header (chars "node_count ") (chars " xyz")
           (chars "edge_count = 0") invalid_argument).
  - not_in_literal.
  - not_in_literal.
  - not_in_literal.
  - not_in_literal.
  - reflexivity.
Defined.







Lemma read_edges_groups_by_source_witness :
  read_edges (H := lp64_sizes) (Wire1 := word_wire 8) 3
    (mk_istream (record_bytes (H := lp64_sizes) (Wire0 := word_wire 8) shuffled_records
                 ++ chars "trailer") false false)
    [[]; []] =
  Ok [ [mkEdge 1 2]; [mkEdge 0 5; mkEdge 1 300] ].
Proof.
  refine (read_edges_groups_by_source (H := lp64_sizes) (Wire0 := word_wire 8)
            shuffled_records (chars "trailer") 2 _).
  repeat constructor; cbn; lia.
Defined.

